(** * ipCalc-network: the IPv4 addressing engine of [src/utils/ipUtils.ts]

    A shallow embedding of the address/mask conversion layer, the network
    derivation engine ([calculateIPInfo]) and the subnet partitioner
    ([generateSubnets]), together with the two call sites that guard them
    ([IpForm.handleSubmit] and [SubnetGenerator.handleGenerate]), the pure
    part of the network utilities ([calculateIpRange],
    [generateIpsInSubnet], [getServiceNameForPort]) and the input checks
    of the forms that call them.

    JavaScript numbers are IEEE doubles.  Every number the engine handles is
    an integer or a power of two; they are represented here exactly, as [Z]
    and [Q].  The representation agrees with the doubles as long as the
    magnitudes stay below 2^53: this holds for the octets of every valid
    address, for the prefixes 0 to 33 and for the subnet counts up to 2^32,
    which is where the statements below read a numeric result.
    The 32-bit operators of JavaScript are written out with their
    conversions ([ToInt32], [ToUint32]) and their 5-bit shift counts.
    Strings are sequences of 8-bit characters; a text with a code unit
    above 255 is rejected by [isValidIP] in the source and has no
    counterpart here. *)

From Stdlib Require Import ZArith QArith Qpower List String Ascii Bool Lia.
From Stdlib Require Import DecimalString.
Import ListNotations.

Local Open Scope string_scope.
Local Open Scope list_scope.
Local Open Scope Z_scope.

(** ** JavaScript primitives *)

Module JS.

(** A number that may be [NaN]; [None] stands for [NaN]. *)
Definition number := option Z.

(** [ToUint32] and [ToInt32] of ECMA-262 on integers. *)
Definition ToUint32 (x : Z) : Z := x mod 2 ^ 32.

Definition ToInt32 (x : Z) : Z :=
  let u := x mod 2 ^ 32 in
  if u <? 2 ^ 31 then u else u - 2 ^ 32.

(** [ToInt32(NaN)] is [+0]. *)
Definition ToInt32_number (n : number) : Z :=
  match n with
  | Some x => ToInt32 x
  | None => 0
  end.

(** [a << n]: the left operand is converted with [ToInt32], the count
    with [ToUint32] and masked to five bits, the result is a signed
    32-bit integer. *)
Definition shl (a n : Z) : Z :=
  ToInt32 (Z.shiftl (ToInt32 a) (ToUint32 n mod 32)).

(** [a >>> n]: unsigned right shift, the result is unsigned. *)
Definition ushr (a n : Z) : Z :=
  Z.shiftr (ToUint32 a) (ToUint32 n mod 32).

(** [a | b], [a & b] and [~a] work on signed 32-bit integers. *)
Definition bor (a b : Z) : Z := Z.lor (ToInt32 a) (ToInt32 b).
Definition band (a b : Z) : Z := Z.land (ToInt32 a) (ToInt32 b).
Definition bnot (a : Z) : Z := Z.lnot (ToInt32 a).

(** *** Strings *)

(** [s.split(sep)] for a one-character separator. *)
Fixpoint split (sep : ascii) (s : string) : list string :=
  match s with
  | EmptyString => [EmptyString]
  | String c rest =>
      if Ascii.eqb c sep then EmptyString :: split sep rest
      else
        match split sep rest with
        | [] => [String c EmptyString]
        | part :: parts => String c part :: parts
        end
  end.

(** [parts.join(sep)]. *)
Definition join (sep : string) (parts : list string) : string :=
  String.concat sep parts.

Definition is_digit (c : ascii) : bool :=
  ((48 <=? nat_of_ascii c) && (nat_of_ascii c <=? 57))%nat.

Definition digit_value (c : ascii) : Z := Z.of_nat (nat_of_ascii c) - 48.

(** White space skipped by [parseInt] (the code units below 256 of
    [StrWhiteSpaceChar]: TAB, LF, VT, FF, CR, SP and NBSP). *)
Definition is_space (c : ascii) : bool :=
  let n := nat_of_ascii c in
  ((9 <=? n) && (n <=? 13) || (n =? 32) || (n =? 160))%nat.

Fixpoint skip_spaces (s : string) : string :=
  match s with
  | String c rest => if is_space c then skip_spaces rest else s
  | EmptyString => s
  end.

(** The longest prefix of decimal digits, accumulated most significant
    digit first; [None] when there is no digit at all. *)
Fixpoint digits_prefix (acc : option Z) (s : string) : option Z :=
  match s with
  | String c rest =>
      if is_digit c then
        digits_prefix
          (Some (10 * match acc with Some a => a | None => 0 end
                 + digit_value c)) rest
      else acc
  | EmptyString => acc
  end.

(** [parseInt(s, 10)]: leading white space, an optional sign, then the
    longest run of decimal digits; [NaN] when that run is empty. *)
Definition parseInt (s : string) : number :=
  match skip_spaces s with
  | String "-" rest => option_map Z.opp (digits_prefix None rest)
  | String "+" rest => digits_prefix None rest
  | t => digits_prefix None t
  end.

(** [parseInt(parts[i], 10)]: a missing element is [undefined], which
    [parseInt] reads as the text "undefined" and answers [NaN]. *)
Definition parseInt_at (parts : list string) (i : nat) : number :=
  match nth_error parts i with
  | Some part => parseInt part
  | None => None
  end.

(** [Number.prototype.toString()] on an integer. *)
Definition toString (x : Z) : string :=
  NilZero.string_of_int (Z.to_int x).

(** [x.toString(2)] on an integer. *)
Fixpoint binary_digits (p : positive) : string :=
  match p with
  | xH => "1"
  | xO q => (binary_digits q ++ "0")%string
  | xI q => (binary_digits q ++ "1")%string
  end.

Definition toString2 (n : number) : string :=
  match n with
  | None => "NaN"
  | Some 0 => "0"
  | Some (Zpos p) => binary_digits p
  | Some (Zneg p) => ("-" ++ binary_digits p)%string
  end.

Fixpoint repeat_char (c : ascii) (n : nat) : string :=
  match n with
  | O => EmptyString
  | S k => String c (repeat_char c k)
  end.

(** [s.padStart(width, c)] for a one-character filler. *)
Definition padStart (width : nat) (c : ascii) (s : string) : string :=
  (repeat_char c (width - String.length s) ++ s)%string.

(** A number that may also be [NaN] or [-Infinity]. *)
Inductive xnumber : Type :=
| XNaN
| XNegInfinity
| XFin (z : Z).

(** [Math.ceil(Math.log2(n))] on an integer: [NaN] below zero,
    [-Infinity] at zero, and otherwise the least [k] with [n <= 2^k]
    ([Math.log2] is exact on powers of two, and for [n] up to 2^32 the
    logarithm of any other [n] is far enough from an integer for the
    ceiling to be the mathematical one). *)
Definition ceil_log2 (n : Z) : xnumber :=
  if n <? 0 then XNaN
  else if n =? 0 then XNegInfinity
  else XFin (Z.log2_up n).

(** [Math.min(cidr + bits, bound)] with [cidr] and [bound] finite. *)
Definition min_plus (cidr : Z) (bits : xnumber) (bound : Z) : xnumber :=
  match bits with
  | XFin b => XFin (Z.min (cidr + b) bound)
  | XNegInfinity => XNegInfinity
  | XNaN => XNaN
  end.

(** [Math.pow(2, e)] for an integer exponent, possibly negative. *)
Definition pow2 (e : Z) : Q := Qpower 2 e.

End JS.

(** ** Regular expressions without repetition

    The validator's pattern uses literals, character classes, optional
    items, alternation and concatenation only. *)

Inductive regex : Type :=
| Chr (c : ascii)
| Range (lo hi : ascii)
| OneOf (cs : list ascii)
| Seq (r1 r2 : regex)
| Alt (r1 r2 : regex)
| Opt (r : regex).

Definition in_range (lo hi c : ascii) : bool :=
  ((nat_of_ascii lo <=? nat_of_ascii c) && (nat_of_ascii c <=? nat_of_ascii hi))%nat.

Definition mem_ascii (c : ascii) (cs : list ascii) : bool :=
  existsb (Ascii.eqb c) cs.

(** The backtracking matcher: every way [r] can consume a prefix of [s],
    as the list of the remaining suffixes, in the order the engine tries
    them (left alternative first, optional item present first). *)
Fixpoint rx_run (r : regex) (s : string) : list string :=
  match r with
  | Chr c =>
      match s with
      | String a rest => if Ascii.eqb a c then [rest] else []
      | EmptyString => []
      end
  | Range lo hi =>
      match s with
      | String a rest => if in_range lo hi a then [rest] else []
      | EmptyString => []
      end
  | OneOf cs =>
      match s with
      | String a rest => if mem_ascii a cs then [rest] else []
      | EmptyString => []
      end
  | Seq r1 r2 => flat_map (rx_run r2) (rx_run r1 s)
  | Alt r1 r2 => rx_run r1 s ++ rx_run r2 s
  | Opt r1 => rx_run r1 s ++ [s]
  end.

Definition is_empty (s : string) : bool :=
  match s with
  | EmptyString => true
  | String _ _ => false
  end.

(** [/^r$/.test(s)]: some way of matching [r] at position 0 ends at the
    end of the input. *)
Definition rx_test (r : regex) (s : string) : bool :=
  existsb is_empty (rx_run r s).

(** ** The conversion layer *)

(** [(25[0-5]|2[0-4][0-9]|[01]?[0-9][0-9]?)] *)
Definition octet_pattern : regex :=
  Alt (Seq (Chr "2") (Seq (Chr "5") (Range "0" "5")))
      (Alt (Seq (Chr "2") (Seq (Range "0" "4") (Range "0" "9")))
           (Seq (Opt (OneOf ["0"; "1"]%char))
                (Seq (Range "0" "9") (Opt (Range "0" "9"))))).

Definition ip_pattern : regex :=
  Seq octet_pattern
    (Seq (Chr ".") (Seq octet_pattern
      (Seq (Chr ".") (Seq octet_pattern
        (Seq (Chr ".") octet_pattern))))).

Definition isValidIP (ip : string) : bool := rx_test ip_pattern ip.

Definition ipToInt (ip : string) : Z :=
  let parts := JS.split "." ip in
  JS.ushr
    (JS.bor
       (JS.bor
          (JS.bor (JS.shl (JS.ToInt32_number (JS.parseInt_at parts 0)) 24)
                  (JS.shl (JS.ToInt32_number (JS.parseInt_at parts 1)) 16))
          (JS.shl (JS.ToInt32_number (JS.parseInt_at parts 2)) 8))
       (JS.ToInt32_number (JS.parseInt_at parts 3)))
    0.

Definition intToIp (int : Z) : string :=
  JS.join "."
    [ JS.toString (JS.band (JS.ushr int 24) 255);
      JS.toString (JS.band (JS.ushr int 16) 255);
      JS.toString (JS.band (JS.ushr int 8) 255);
      JS.toString (JS.band int 255) ].

Definition cidrToSubnetMask (cidr : Z) : string :=
  let mask := JS.ushr (JS.bnot (JS.ushr 4294967295 cidr)) 0 in
  intToIp mask.

Definition subnetMaskToCidr (subnetMask : string) : Z :=
  let mask := ipToInt subnetMask in
  fold_left
    (fun count i =>
       if negb (JS.band mask (JS.shl 1 (31 - i)) =? 0) then count + 1
       else count)
    (map Z.of_nat (seq 0 32)) 0.

Definition toBinary (num : JS.number) (padding : nat) : string :=
  JS.padStart padding "0" (JS.toString2 num).

Definition ipToBinary (ip : string) : string :=
  JS.join " " (map (fun octet => toBinary (JS.parseInt octet) 8) (JS.split "." ip)).


(** ** The network derivation engine *)

Module IPResult.
Record t : Type := mk {
  networkAddress : string;
  broadcastAddress : string;
  firstValidHost : string;
  lastValidHost : string;
  totalHosts : Q;
  usableHosts : Q;
  cidr : Z;
  subnetMask : string;
  binarySubnetMask : string;
  binaryIpAddress : string;
  binaryNetworkAddress : string;
  wildcardMask : string;
  subnetBits : Z;
  hostBits : Z
}.
End IPResult.

Module Subnet.
Record t : Type := mk {
  id : Z;
  networkAddress : string;
  broadcastAddress : string;
  firstHost : string;
  lastHost : string;
  cidr : Z;
  usableHosts : Z
}.
End Subnet.

Definition calculateNetworkAddress (ip subnetMask : string) : string :=
  let ipInt := ipToInt ip in
  let maskInt := ipToInt subnetMask in
  let networkInt := JS.band ipInt maskInt in
  intToIp networkInt.

Definition calculateBroadcastAddress (ip subnetMask : string) : string :=
  let ipInt := ipToInt ip in
  let maskInt := ipToInt subnetMask in
  let networkInt := JS.band ipInt maskInt in
  let invertedMaskInt := JS.ushr (JS.bnot maskInt) 0 in
  let broadcastInt := JS.bor networkInt invertedMaskInt in
  intToIp broadcastInt.

Definition calculateFirstHost (networkAddress : string) : string :=
  let networkInt := ipToInt networkAddress in
  intToIp (networkInt + 1).

Definition calculateLastHost (broadcastAddress : string) : string :=
  let broadcastInt := ipToInt broadcastAddress in
  intToIp (broadcastInt - 1).

Definition calculateWildcardMask (subnetMask : string) : string :=
  let maskInt := ipToInt subnetMask in
  let wildcardInt := JS.ushr (JS.bnot maskInt) 0 in
  intToIp wildcardInt.

(** [a > b] on rationals. *)
Definition Qgtb (a b : Q) : bool := negb (Qle_bool a b).

Definition calculateIPInfo (ip : string) (cidr : Z) : IPResult.t :=
  let subnetMask := cidrToSubnetMask cidr in
  let networkAddress := calculateNetworkAddress ip subnetMask in
  let broadcastAddress := calculateBroadcastAddress ip subnetMask in
  let firstValidHost := calculateFirstHost networkAddress in
  let lastValidHost := calculateLastHost broadcastAddress in
  let totalHosts := JS.pow2 (32 - cidr) in
  let usableHosts := if Qgtb totalHosts 2 then (totalHosts - 2)%Q else 0%Q in
  let binarySubnetMask := ipToBinary subnetMask in
  let binaryIpAddress := ipToBinary ip in
  let binaryNetworkAddress := ipToBinary networkAddress in
  let wildcardMask := calculateWildcardMask subnetMask in
  {| IPResult.networkAddress := networkAddress;
     IPResult.broadcastAddress := broadcastAddress;
     IPResult.firstValidHost := firstValidHost;
     IPResult.lastValidHost := lastValidHost;
     IPResult.totalHosts := totalHosts;
     IPResult.usableHosts := usableHosts;
     IPResult.cidr := cidr;
     IPResult.subnetMask := subnetMask;
     IPResult.binarySubnetMask := binarySubnetMask;
     IPResult.binaryIpAddress := binaryIpAddress;
     IPResult.binaryNetworkAddress := binaryNetworkAddress;
     IPResult.wildcardMask := wildcardMask;
     IPResult.subnetBits :=
       cidr - (if cidr <=? 8 then 0
               else if cidr <=? 16 then 8
               else if cidr <=? 24 then 16 else 24);
     IPResult.hostBits := 32 - cidr |}.

(** ** The subnet partitioner *)

Section SubnetLoop.

Variables (networkInt subnetSize newCidr : Z).
Variables (actualSubnetCount : Q) (subnetCount : Z).

(** One iteration of the loop body: the subnet pushed for index [i]. *)
Definition subnet_at (i : Z) : Subnet.t :=
  let subnetStartInt := networkInt + i * subnetSize in
  let subnetStart := intToIp subnetStartInt in
  let subnetEnd := intToIp (subnetStartInt + subnetSize - 1) in
  {| Subnet.id := i + 1;
     Subnet.networkAddress := subnetStart;
     Subnet.broadcastAddress := subnetEnd;
     Subnet.firstHost := intToIp (subnetStartInt + 1);
     Subnet.lastHost := intToIp (subnetStartInt + subnetSize - 2);
     Subnet.cidr := newCidr;
     Subnet.usableHosts := subnetSize - 2 |}.

(** [i < actualSubnetCount && i < subnetCount] *)
Definition loop_guard (i : Z) : bool :=
  Qgtb actualSubnetCount (inject_Z i) && (i <? subnetCount).

(** The [for] loop from index [i] on, in the order the subnets are
    pushed.  [fuel] bounds the number of iterations; the loop is always
    started with as much fuel as [subnetCount], which the guard never
    lets it use up. *)
Fixpoint subnet_loop (fuel : nat) (i : Z) : list Subnet.t :=
  match fuel with
  | O => []
  | S fuel' =>
      if loop_guard i then subnet_at i :: subnet_loop fuel' (i + 1)
      else []
  end.

End SubnetLoop.

Definition generateSubnets (ip : string) (cidr subnetCount : Z)
  : list Subnet.t :=
  let bitsNeeded := JS.ceil_log2 subnetCount in
  match JS.min_plus cidr bitsNeeded 30 with
  | JS.XFin newCidr =>
      let subnetMask := cidrToSubnetMask cidr in
      let networkAddress := calculateNetworkAddress ip subnetMask in
      let networkInt := ipToInt networkAddress in
      (* newCidr <= 30: the exponent is at least 2 and the power an integer *)
      let subnetSize := 2 ^ (32 - newCidr) in
      let actualSubnetCount := JS.pow2 (newCidr - cidr) in
      subnet_loop networkInt subnetSize newCidr actualSubnetCount subnetCount
        (Z.to_nat subnetCount) 0
  | JS.XNegInfinity | JS.XNaN =>
      (* subnetCount <= 0: actualSubnetCount is 0 or NaN, and the guard
         [0 < actualSubnetCount && 0 < subnetCount] fails at once *)
      []
  end.

(** ** The call sites that guard the engine *)

(** [App.handleCalculate]: the result stored by [setIpResult]. *)
Definition handleCalculate (ip : string) (cidr : Z) : IPResult.t :=
  calculateIPInfo ip cidr.

Inductive submit_outcome : Type :=
| IpError (key : string)
| Calculated (result : IPResult.t).

(** [IpForm.handleSubmit] with [onCalculate = App.handleCalculate]: the
    translation key passed to [setIpError], or the result computed. *)
Definition handleSubmit (ip : string) (cidr : Z) : submit_outcome :=
  if is_empty ip then IpError "validation.ipRequired"
  else if negb (isValidIP ip) then IpError "validation.enterValidIp"
  else Calculated (handleCalculate ip cidr).

(** [NetworkTools.updateNetworkInfo]: the result stored by [setIpInfo],
    or [None] when the guard [ip && isValidIP(ip)] fails. *)
Definition updateNetworkInfo (ip : string) (cidr : Z) : option IPResult.t :=
  if negb (is_empty ip) && isValidIP ip
  then Some (calculateIPInfo ip cidr)
  else None.

(** [NetworkTools.handleCidrChange]: the prefix field is parsed and, when
    it passes the guard [newCidr >= 1 && newCidr <= 32], handed to
    [updateNetworkInfo]. *)
Definition handleCidrChange (ip value : string) : option IPResult.t :=
  match JS.parseInt value with
  | Some newCidr =>
      if (1 <=? newCidr) && (newCidr <=? 32)
      then updateNetworkInfo ip newCidr
      else None
  | None => None
  end.

(** [App.handleGenerateSubnets]: the list stored by [setSubnets], or
    [None] when the guard [currentIp && currentCidr] is falsy. *)
Definition handleGenerateSubnets (currentIp : string) (currentCidr count : Z)
  : option (list Subnet.t) :=
  if negb (is_empty currentIp) && negb (currentCidr =? 0)
  then Some (generateSubnets currentIp currentCidr count)
  else None.

(** [SubnetGenerator.handleGenerate] with
    [onGenerateSubnets = App.handleGenerateSubnets]; [subnetCount] is the
    text of the count field. *)
Definition handleGenerate (ip : string) (cidr : Z) (subnetCount : string)
  : option (list Subnet.t) :=
  match JS.parseInt subnetCount with
  | Some count =>
      if (2 <=? count) && (count <=? 1024)
      then handleGenerateSubnets ip cidr count
      else None
  | None => None
  end.

(** ** Vocabulary of the statements *)

(** The big-endian packing of four octets. *)
Definition pack (a b c d : Z) : Z :=
  a * 2 ^ 24 + b * 2 ^ 16 + c * 2 ^ 8 + d.

Definition is_octet (o : Z) : Prop := 0 <= o <= 255.

(** The octet of [x] that starts at bit [k], after [ToUint32]. *)
Definition octet_at (x k : Z) : Z := (JS.ToUint32 x / 2 ^ k) mod 256.

(** Four parts with dots in between. *)
Definition dotted (a b c d : string) : string :=
  (a ++ "." ++ b ++ "." ++ c ++ "." ++ d)%string.

(** [s] does not contain the character [c]. *)
Fixpoint no_char (c : ascii) (s : string) : bool :=
  match s with
  | EmptyString => true
  | String a rest => negb (Ascii.eqb a c) && no_char c rest
  end.

(** What the round trips need of the decimal text of an octet: it parses
    back to the octet, holds no dot, and is accepted by the octet pattern. *)
Definition octet_text_check (o : Z) : bool :=
  match JS.parseInt (JS.toString o) with
  | Some v => v =? o
  | None => false
  end
  && no_char "." (JS.toString o)
  && rx_test octet_pattern (JS.toString o).

(** *** The language of a pattern

    Without repetition a pattern denotes a finite set of texts, which can
    be listed. *)

Definition all_ascii : list ascii := map ascii_of_nat (seq 0 256).

Definition single (c : ascii) : string := String c EmptyString.

Fixpoint rx_lang (r : regex) : list string :=
  match r with
  | Chr c => [single c]
  | Range lo hi => map single (filter (in_range lo hi) all_ascii)
  | OneOf cs => map single cs
  | Seq r1 r2 =>
      flat_map (fun p => map (String.append p) (rx_lang r2)) (rx_lang r1)
  | Alt r1 r2 => rx_lang r1 ++ rx_lang r2
  | Opt r1 => EmptyString :: rx_lang r1
  end.

(** *** Canonical dotted-decimal text *)

(** An octet written with a zero in front of further characters. *)
Definition leading_zero (part : string) : bool :=
  match part with
  | String "0" (String _ _) => true
  | _ => false
  end.

(** No dot-separated part of [ip] is written with a leading zero. *)
Definition canonicalIP (ip : string) : bool :=
  forallb (fun part => negb (leading_zero part)) (JS.split "." ip).

(** What the round trips need of a text of the octet pattern: it holds no
    dot, it parses to an octet, and printing that octet gives the text
    back exactly when the text has no leading zero. *)
Definition octet_lang_check (p : string) : bool :=
  no_char "." p
  && match JS.parseInt p with
     | Some v =>
         (0 <=? v) && (v <=? 255)
         && Bool.eqb (String.eqb (JS.toString v) p) (negb (leading_zero p))
     | None => false
     end.

(** *** Masks and subnet counts *)

(** The number whose text [cidrToSubnetMask] returns. *)
Definition mask_of (cidr : Z) : Z :=
  JS.ushr (JS.bnot (JS.ushr 4294967295 cidr)) 0.

(** The prefix [generateSubnets] gives its subnets, for a count of at
    least 1. *)
Definition newCidr_of (cidr subnetCount : Z) : Z :=
  Z.min (cidr + Z.log2_up subnetCount) 30.

(** The least integer that is at least [2^e]: the number of indices below
    [Math.pow(2, e)]. *)
Definition ceil_pow2 (e : Z) : Z := if e <? 0 then 1 else 2 ^ e.

(** [i, i+1, ..., i+len-1] *)
Fixpoint zrange (i : Z) (len : nat) : list Z :=
  match len with
  | O => []
  | S len' => i :: zrange (i + 1) len'
  end.

(** *** Failures

    The error kinds of the specification.  The source declares no error
    value and holds no [throw] statement: seen as computations that may
    fail, the two entry points of the engine always return. *)
Inductive EngineError : Type :=
| InvalidAddress
| InvalidPrefix
| InvalidSubnetCount.

Definition calculateIPInfo_outcome (ip : string) (cidr : Z)
  : EngineError + IPResult.t :=
  inr (calculateIPInfo ip cidr).

Definition generateSubnets_outcome (ip : string) (cidr subnetCount : Z)
  : EngineError + list Subnet.t :=
  inr (generateSubnets ip cidr subnetCount).

(** *** Host ranges *)

(** The result is returned, and its first host is numerically above its
    last host. *)
Definition hosts_reversed (ip : string) (cidr : Z) : Prop :=
  exists r,
    calculateIPInfo_outcome ip cidr = inr r /\
    ipToInt (IPResult.firstValidHost r) > ipToInt (IPResult.lastValidHost r).

(** ** The rest of the conversion layer *)

(** [ipToBinaryRaw]: the binary octets joined without a separator. *)
Definition ipToBinaryRaw (ip : string) : string :=
  JS.join "" (map (fun octet => toBinary (JS.parseInt octet) 8) (JS.split "." ip)).

Module BinaryAnd.
Record t : Type := mk {
  ipBits : string;
  maskBits : string;
  resultBits : string;
  networkBits : Z
}.
End BinaryAnd.

Definition generateBinaryAndOperation (ip subnetMask : string) : BinaryAnd.t :=
  let ipInt := ipToInt ip in
  let maskInt := ipToInt subnetMask in
  let resultInt := JS.band ipInt maskInt in
  let ipBits := ipToBinaryRaw ip in
  let maskBits := ipToBinaryRaw subnetMask in
  let resultBits := ipToBinaryRaw (intToIp resultInt) in
  let networkBits := subnetMaskToCidr subnetMask in
  {| BinaryAnd.ipBits := ipBits;
     BinaryAnd.maskBits := maskBits;
     BinaryAnd.resultBits := resultBits;
     BinaryAnd.networkBits := networkBits |}.

(** ** The network utilities ([src/utils/networkUtils.ts]) *)

Module PortInfo.
Record t : Type := mk {
  port : Z;
  protocol : string;
  service : string
}.
End PortInfo.

Definition commonPorts : list PortInfo.t :=
  [ PortInfo.mk 21 "TCP" "FTP";
    PortInfo.mk 22 "TCP" "SSH";
    PortInfo.mk 23 "TCP" "Telnet";
    PortInfo.mk 25 "TCP" "SMTP";
    PortInfo.mk 53 "TCP/UDP" "DNS";
    PortInfo.mk 80 "TCP" "HTTP";
    PortInfo.mk 110 "TCP" "POP3";
    PortInfo.mk 143 "TCP" "IMAP";
    PortInfo.mk 443 "TCP" "HTTPS";
    PortInfo.mk 389 "TCP" "LDAP";
    PortInfo.mk 636 "TCP" "LDAPS";
    PortInfo.mk 445 "TCP" "SMB";
    PortInfo.mk 3306 "TCP" "MySQL";
    PortInfo.mk 3389 "TCP" "RDP";
    PortInfo.mk 5432 "TCP" "PostgreSQL";
    PortInfo.mk 8080 "TCP" "HTTP Proxy" ].

(** [commonPorts.find(p => p.port === port)], then the service name or,
    for a port that is not found, the empty text (an earlier revision of
    the module answered a placeholder word there). *)
Definition getServiceNameForPort (port : Z) : string :=
  match find (fun p => PortInfo.port p =? port) commonPorts with
  | Some portInfo => PortInfo.service portInfo
  | None => ""
  end.

(** The loop of [calculateIpRange] from [i] on: [i <= endIpInt] is the
    guard, [fuel] bounds the iterations. *)
Fixpoint range_loop (endIpInt : Z) (fuel : nat) (i : Z) : list string :=
  match fuel with
  | O => []
  | S fuel' =>
      if i <=? endIpInt then intToIp i :: range_loop endIpInt fuel' (i + 1)
      else []
  end.

Definition calculateIpRange (startIp endIp : string) : list string :=
  let startIpInt := ipToInt startIp in
  let endIpInt := ipToInt endIp in
  if startIpInt >? endIpInt then []
  else range_loop endIpInt (Z.to_nat (endIpInt - startIpInt + 1)) startIpInt.

(** The loop of [generateIpsInSubnet] from [i] on, with [len] addresses
    pushed so far: the guard is [i < broadcastInt && ips.length < limit]. *)
Fixpoint subnet_ips_loop (broadcastInt limit : Z) (fuel : nat) (i len : Z)
  : list string :=
  match fuel with
  | O => []
  | S fuel' =>
      if (i <? broadcastInt) && (len <? limit)
      then intToIp i :: subnet_ips_loop broadcastInt limit fuel' (i + 1) (len + 1)
      else []
  end.

(** [generateIpsInSubnet], with the limit given (the callers pass 50, the
    default is 100); nothing in the [try] block throws.  The two
    boundaries are the signed results of [&] and [|].  The loop runs at
    most [limit] times and at most once per address below the broadcast
    address, which is the fuel it gets. *)
Definition generateIpsInSubnet (networkIp : string) (cidr limit : Z)
  : list string :=
  let mask := JS.ushr (JS.bnot (JS.ushr 4294967295 cidr)) 0 in
  let ipInt := ipToInt networkIp in
  let networkInt := JS.band ipInt mask in
  let broadcastInt := JS.bor networkInt (JS.ushr (JS.bnot mask) 0) in
  subnet_ips_loop broadcastInt limit
    (Z.to_nat (Z.min limit (broadcastInt - networkInt))) (networkInt + 1) 0.

(** ** More call sites *)

(** [SubnetGenerator.handleCountChange]: the translation key passed to
    [setError], the empty text when the count is accepted. *)
Definition handleCountChange (value : string) : string :=
  match JS.parseInt value with
  | None => "validation.minimum"
  | Some count =>
      if count <? 2 then "validation.minimum"
      else if count >? 1024 then "validation.maximum"
      else ""
  end.

(** [IpForm.handleIpChange]: the error key and the binary preview kept in
    the state of the form. *)
Definition handleIpChange (value : string) : string * string :=
  if negb (is_empty value) && negb (isValidIP value)
  then ("validation.invalidIp", "")
  else if negb (is_empty value) then ("", ipToBinary value)
  else ("", "").

Inductive scan_outcome : Type :=
| ScanError (key : string)
| Scanning (startIp endIp : string) (ips : list string).

(** [NetworkTools.handleIpRangeScan] up to the call of [scanIpRange]: the
    key of the error reported, or the addresses handed to the scan.  (A
    range too large to be held in memory ends in the [catch] block of the
    source, with an error as well.) *)
Definition handleIpRangeScan (startIp endIp : string) : scan_outcome :=
  if is_empty startIp || is_empty endIp
  then ScanError "networkTools.ping.errors.provideIps"
  else if negb (isValidIP startIp) || negb (isValidIP endIp)
  then ScanError "networkTools.ping.errors.validIps"
  else
    let ips := calculateIpRange startIp endIp in
    if (List.length ips =? 0)%nat
    then ScanError "networkTools.ping.errors.invalidRange"
    else if (50 <? List.length ips)%nat
    then ScanError "networkTools.ping.errors.tooManyIps"
    else Scanning startIp endIp ips.

(** [NetworkTools.handleScanSubnet] up to the call of [scanIpRange]: the
    error, or the start and end fields it sets ([subnetIps[0]] and
    [subnetIps[subnetIps.length - 1]]) and the addresses scanned. *)
Definition handleScanSubnet (ip : string) : scan_outcome :=
  if is_empty ip
  then ScanError "networkTools.ping.errors.ipRequired"
  else if negb (isValidIP ip)
  then ScanError "networkTools.ping.errors.validIps"
  else
    let subnetIps := generateIpsInSubnet ip 24 50 in
    match subnetIps with
    | [] => ScanError "networkTools.ping.errors.noIps"
    | first :: _ => Scanning first (last subnetIps first) subnetIps
    end.

(** The update of the ping and port histories: the new entry in front,
    at most ten entries kept. *)
Definition pushHistory {A : Type} (entry : A) (prev : list A) : list A :=
  let newHistory := entry :: prev in
  if (10 <? List.length newHistory)%nat then firstn 10 newHistory
  else newHistory.

(** ** More vocabulary *)

Fixpoint all_chars (f : ascii -> bool) (s : string) : bool :=
  match s with
  | EmptyString => true
  | String c rest => f c && all_chars f rest
  end.

(** One to three decimal digits worth at most 255. *)
Definition octet_text (p : string) : bool :=
  all_chars JS.is_digit p
  && (1 <=? String.length p)%nat && (String.length p <=? 3)%nat
  && match JS.digits_prefix None p with
     | Some v => v <=? 255
     | None => false
     end.

(** All texts of one to three decimal digits. *)
Definition digit_chars : list ascii := filter JS.is_digit all_ascii.

Definition digit_texts : list string :=
  let d1 := map single digit_chars in
  let d2 := flat_map (fun c => map (String c) d1) digit_chars in
  let d3 := flat_map (fun c => map (String c) d2) digit_chars in
  d1 ++ d2 ++ d3.

Definition is_bit (c : ascii) : bool :=
  Ascii.eqb c "0" || Ascii.eqb c "1".

(** The number written by a text of binary digits, most significant
    digit first. *)
Fixpoint bits_value_from (acc : Z) (s : string) : Z :=
  match s with
  | EmptyString => acc
  | String c rest =>
      bits_value_from (2 * acc + (if Ascii.eqb c "1" then 1 else 0)) rest
  end.

Definition bits_value (s : string) : Z := bits_value_from 0 s.

(** The digit-by-digit AND of two texts of binary digits. *)
Fixpoint and_bits (a b : string) : string :=
  match a, b with
  | String x a', String y b' =>
      String (if Ascii.eqb x "1" && Ascii.eqb y "1" then "1" else "0")%char
             (and_bits a' b')
  | _, _ => EmptyString
  end.

(** The number of bits set among the low 32 bits. *)
Definition popcount32 (x : Z) : Z :=
  Z.of_nat (List.length (filter (Z.testbit x) (map Z.of_nat (seq 0 32)))).

(** * Properties *)

(** Linear arithmetic with the powers of two of the engine evaluated. *)
Ltac pow2_lia :=
  change (2 ^ 32) with 4294967296 in *;
  change (2 ^ 31) with 2147483648 in *;
  change (2 ^ 24) with 16777216 in *;
  change (2 ^ 16) with 65536 in *;
  change (2 ^ 8) with 256 in *;
  change (2 ^ 0) with 1 in *;
  lia.

(** ** 32-bit arithmetic *)

Section Bits32.

Lemma ToUint32_range x : 0 <= JS.ToUint32 x < 2 ^ 32.
Proof. unfold JS.ToUint32. apply Z.mod_pos_bound. lia. Qed.

Lemma ToUint32_small x : 0 <= x < 2 ^ 32 -> JS.ToUint32 x = x.
Proof. intros H. unfold JS.ToUint32. now apply Z.mod_small. Qed.

Lemma ToUint32_idem x : JS.ToUint32 (JS.ToUint32 x) = JS.ToUint32 x.
Proof. apply ToUint32_small, ToUint32_range. Qed.

Lemma ToUint32_ToInt32 x : JS.ToUint32 (JS.ToInt32 x) = JS.ToUint32 x.
Proof.
  unfold JS.ToUint32, JS.ToInt32.
  destruct (x mod 2 ^ 32 <? 2 ^ 31).
  - now rewrite Z.mod_mod by lia.
  - replace (x mod 2 ^ 32 - 2 ^ 32) with (x mod 2 ^ 32 + (-1) * 2 ^ 32) by ring.
    rewrite Z.mod_add by lia. now rewrite Z.mod_mod by lia.
Qed.

Lemma ToInt32_range x : - 2 ^ 31 <= JS.ToInt32 x < 2 ^ 31.
Proof.
  unfold JS.ToInt32.
  pose proof (Z.mod_pos_bound x (2 ^ 32) ltac:(lia)).
  destruct (Z.ltb_spec (x mod 2 ^ 32) (2 ^ 31)); lia.
Qed.

Lemma ToInt32_small x : - 2 ^ 31 <= x < 2 ^ 31 -> JS.ToInt32 x = x.
Proof.
  intros H. unfold JS.ToInt32.
  destruct (Z.ltb_spec (x mod 2 ^ 32) (2 ^ 31)) as [L | L];
    revert L; Z.div_mod_to_equations; lia.
Qed.

Lemma ToUint32_as_land x : JS.ToUint32 x = Z.land x (Z.ones 32).
Proof. unfold JS.ToUint32. now rewrite Z.land_ones by lia. Qed.

Lemma ToUint32_land a b :
  JS.ToUint32 (Z.land a b) = Z.land (JS.ToUint32 a) (JS.ToUint32 b).
Proof.
  rewrite !ToUint32_as_land.
  apply Z.bits_inj'. intros n Hn. rewrite !Z.land_spec.
  destruct (Z.testbit a n), (Z.testbit b n), (Z.testbit (Z.ones 32) n);
    reflexivity.
Qed.

Lemma ToUint32_lor a b :
  JS.ToUint32 (Z.lor a b) = Z.lor (JS.ToUint32 a) (JS.ToUint32 b).
Proof.
  rewrite !ToUint32_as_land.
  apply Z.bits_inj'. intros n Hn.
  rewrite !Z.land_spec, !Z.lor_spec, !Z.land_spec.
  destruct (Z.testbit a n), (Z.testbit b n), (Z.testbit (Z.ones 32) n);
    reflexivity.
Qed.

Lemma ToUint32_lnot a :
  JS.ToUint32 (Z.lnot a) = 2 ^ 32 - 1 - JS.ToUint32 a.
Proof.
  unfold JS.ToUint32, Z.lnot.
  replace (Z.pred (- a)) with (- a - 1) by lia.
  Z.div_mod_to_equations. lia.
Qed.

Lemma ToUint32_congr a b :
  a mod 2 ^ 32 = b mod 2 ^ 32 -> JS.ToUint32 a = JS.ToUint32 b.
Proof. now unfold JS.ToUint32. Qed.

(** The operators, read back as unsigned 32-bit integers. *)

Lemma ushr_0 a : JS.ushr a 0 = JS.ToUint32 a.
Proof. unfold JS.ushr. now rewrite Z.shiftr_0_r. Qed.

Lemma ushr_const a k :
  0 <= k < 32 -> JS.ushr a k = JS.ToUint32 a / 2 ^ k.
Proof.
  intros Hk. unfold JS.ushr.
  replace (JS.ToUint32 k mod 32) with k.
  - apply Z.shiftr_div_pow2. lia.
  - unfold JS.ToUint32. rewrite (Z.mod_small k (2 ^ 32)) by lia.
    now rewrite Z.mod_small by lia.
Qed.

Lemma ushr_count_mod a n : JS.ushr a n = JS.ushr a (n mod 32).
Proof.
  unfold JS.ushr. f_equal. unfold JS.ToUint32.
  Z.div_mod_to_equations. lia.
Qed.

Lemma band_unsigned a b :
  JS.ToUint32 (JS.band a b) = Z.land (JS.ToUint32 a) (JS.ToUint32 b).
Proof. unfold JS.band. now rewrite ToUint32_land, !ToUint32_ToInt32. Qed.

Lemma bor_unsigned a b :
  JS.ToUint32 (JS.bor a b) = Z.lor (JS.ToUint32 a) (JS.ToUint32 b).
Proof. unfold JS.bor. now rewrite ToUint32_lor, !ToUint32_ToInt32. Qed.

Lemma bnot_unsigned a :
  JS.ToUint32 (JS.bnot a) = 2 ^ 32 - 1 - JS.ToUint32 a.
Proof. unfold JS.bnot. now rewrite ToUint32_lnot, ToUint32_ToInt32. Qed.

Lemma shl_unsigned a k :
  0 <= k < 32 ->
  JS.ToUint32 (JS.shl a k) = JS.ToUint32 (a * 2 ^ k).
Proof.
  intros Hk. unfold JS.shl. rewrite ToUint32_ToInt32.
  replace (JS.ToUint32 k mod 32) with k.
  - rewrite Z.shiftl_mul_pow2 by lia.
    unfold JS.ToUint32.
    rewrite <- (Zmult_mod_idemp_l (JS.ToInt32 a)).
    fold (JS.ToUint32 (JS.ToInt32 a)). rewrite ToUint32_ToInt32.
    unfold JS.ToUint32. now rewrite Zmult_mod_idemp_l.
  - unfold JS.ToUint32. rewrite (Z.mod_small k (2 ^ 32)) by lia.
    now rewrite Z.mod_small by lia.
Qed.

Lemma band_255 a : JS.band a 255 = a mod 256.
Proof.
  unfold JS.band.
  change (JS.ToInt32 255) with (Z.ones 8).
  rewrite Z.land_ones by lia.
  change (2 ^ 8) with 256.
  unfold JS.ToInt32.
  destruct (a mod 2 ^ 32 <? 2 ^ 31); Z.div_mod_to_equations; lia.
Qed.

(** Bits that do not overlap add up. *)
Lemma lor_disjoint_add hi lo k :
  0 <= k -> 0 <= lo < 2 ^ k -> Z.lor (hi * 2 ^ k) lo = hi * 2 ^ k + lo.
Proof.
  intros Hk Hlo.
  assert (D : Z.land (hi * 2 ^ k) lo = 0).
  { apply Z.bits_inj'. intros n Hn.
    rewrite Z.land_spec, Z.bits_0.
    destruct (Z.lt_ge_cases n k) as [L | L].
    - rewrite Z.mul_pow2_bits_low by lia. reflexivity.
    - rewrite <- (Z.mod_small lo (2 ^ k)) by lia.
      rewrite Z.mod_pow2_bits_high by lia. apply andb_false_r. }
  rewrite <- Z.lxor_lor by exact D.
  symmetry. now apply Z.add_nocarry_lxor.
Qed.

End Bits32.


(** ** Octets and their decimal text *)

Section Octets.

Lemma octet_cases (P : Z -> bool) :
  forallb P (map Z.of_nat (seq 0 256)) = true ->
  forall o, is_octet o -> P o = true.
Proof.
  intros H o [Hlo Hhi].
  rewrite forallb_forall in H. apply H.
  rewrite <- (Z2Nat.id o) by lia.
  apply in_map, in_seq. lia.
Qed.

Lemma octet_text_ok o : is_octet o -> octet_text_check o = true.
Proof. apply octet_cases. vm_compute. reflexivity. Qed.

Lemma parseInt_toString_octet o :
  is_octet o -> JS.parseInt (JS.toString o) = Some o.
Proof.
  intros H. apply octet_text_ok in H. unfold octet_text_check in H.
  apply andb_prop in H as [H _]. apply andb_prop in H as [H _].
  destruct (JS.parseInt (JS.toString o)) as [v |]; [| discriminate].
  apply Z.eqb_eq in H. now subst.
Qed.

Lemma toString_octet_no_dot o :
  is_octet o -> no_char "." (JS.toString o) = true.
Proof.
  intros H. apply octet_text_ok in H. unfold octet_text_check in H.
  apply andb_prop in H as [H _]. now apply andb_prop in H as [_ H].
Qed.

Lemma toString_octet_valid o :
  is_octet o -> rx_test octet_pattern (JS.toString o) = true.
Proof.
  intros H. apply octet_text_ok in H. unfold octet_text_check in H.
  now apply andb_prop in H as [_ H].
Qed.

(** The four octets of a 32-bit value. *)

Lemma octet_at_range x k : is_octet (octet_at x k).
Proof.
  unfold is_octet, octet_at.
  pose proof (Z.mod_pos_bound (JS.ToUint32 x / 2 ^ k) 256 ltac:(lia)). lia.
Qed.

Lemma pack_octets x :
  pack (octet_at x 24) (octet_at x 16) (octet_at x 8) (octet_at x 0)
  = JS.ToUint32 x.
Proof.
  unfold pack, octet_at.
  pose proof (ToUint32_range x) as R.
  change (2 ^ 0) with 1. rewrite Z.div_1_r.
  change (2 ^ 32) with 4294967296 in R.
  change (2 ^ 24) with 16777216. change (2 ^ 16) with 65536.
  change (2 ^ 8) with 256.
  Z.div_mod_to_equations. lia.
Qed.

Lemma octet_at_pack a b c d :
  is_octet a -> is_octet b -> is_octet c -> is_octet d ->
  octet_at (pack a b c d) 24 = a /\ octet_at (pack a b c d) 16 = b /\
  octet_at (pack a b c d) 8 = c /\ octet_at (pack a b c d) 0 = d.
Proof.
  unfold is_octet, pack, octet_at. intros Ha Hb Hc Hd.
  rewrite ToUint32_small
    by (change (2 ^ 32) with 4294967296; change (2 ^ 24) with 16777216;
        change (2 ^ 16) with 65536; change (2 ^ 8) with 256; lia).
  change (2 ^ 0) with 1. rewrite Z.div_1_r.
  change (2 ^ 24) with 16777216. change (2 ^ 16) with 65536.
  change (2 ^ 8) with 256.
  repeat split; Z.div_mod_to_equations; lia.
Qed.

Lemma pack_range a b c d :
  is_octet a -> is_octet b -> is_octet c -> is_octet d ->
  0 <= pack a b c d < 2 ^ 32.
Proof.
  unfold is_octet, pack. intros.
  change (2 ^ 32) with 4294967296. change (2 ^ 24) with 16777216.
  change (2 ^ 16) with 65536. change (2 ^ 8) with 256. lia.
Qed.

End Octets.

(** ** Splitting and joining on dots *)

Section DottedText.

Lemma split_no_sep c s : no_char c s = true -> JS.split c s = [s].
Proof.
  induction s as [| a s IH]; simpl; intros H; [reflexivity |].
  apply andb_prop in H as [Ha Hs]. apply negb_true_iff in Ha.
  rewrite Ha, (IH Hs). reflexivity.
Qed.

Lemma split_app c s rest :
  no_char c s = true ->
  JS.split c (s ++ String c rest) = s :: JS.split c rest.
Proof.
  induction s as [| a s IH]; simpl; intros H.
  - now rewrite Ascii.eqb_refl.
  - apply andb_prop in H as [Ha Hs]. apply negb_true_iff in Ha.
    rewrite Ha, (IH Hs). reflexivity.
Qed.

Lemma join_dotted a b c d : JS.join "." [a; b; c; d] = dotted a b c d.
Proof. reflexivity. Qed.

Lemma split_dotted a b c d :
  no_char "." a = true -> no_char "." b = true ->
  no_char "." c = true -> no_char "." d = true ->
  JS.split "." (dotted a b c d) = [a; b; c; d].
Proof.
  intros Ha Hb Hc Hd. unfold dotted. simpl.
  rewrite (split_app _ a) by exact Ha.
  rewrite (split_app _ b) by exact Hb.
  rewrite (split_app _ c) by exact Hc.
  now rewrite (split_no_sep _ d) by exact Hd.
Qed.

(** Two dotted texts with dot-free first parts agree part by part. *)
Lemma dot_free_prefix_inj a a' rest rest' :
  no_char "." a = true -> no_char "." a' = true ->
  (a ++ String "." rest)%string = (a' ++ String "." rest')%string ->
  a = a' /\ rest = rest'.
Proof.
  revert a'. induction a as [| x a IH]; intros [| x' a'] Ha Ha' E;
    simpl in *.
  - now inversion E.
  - inversion E; subst. now rewrite Ascii.eqb_refl in Ha'.
  - inversion E; subst. now rewrite Ascii.eqb_refl in Ha.
  - inversion E; subst.
    apply andb_prop in Ha as [_ Ha]. apply andb_prop in Ha' as [_ Ha'].
    destruct (IH a' Ha Ha' H1) as [-> ->]. now split.
Qed.

Lemma dotted_inj a b c d a' b' c' d' :
  no_char "." a = true -> no_char "." b = true -> no_char "." c = true ->
  no_char "." a' = true -> no_char "." b' = true -> no_char "." c' = true ->
  dotted a b c d = dotted a' b' c' d' ->
  a = a' /\ b = b' /\ c = c' /\ d = d'.
Proof.
  unfold dotted. simpl. intros Ha Hb Hc Ha' Hb' Hc' E.
  apply dot_free_prefix_inj in E as [-> E]; try assumption.
  apply dot_free_prefix_inj in E as [-> E]; try assumption.
  apply dot_free_prefix_inj in E as [-> E]; try assumption.
  now subst.
Qed.

End DottedText.

(** ** The two conversions *)

Section Conversions.

Lemma intToIp_octets x :
  intToIp x =
  dotted (JS.toString (octet_at x 24)) (JS.toString (octet_at x 16))
         (JS.toString (octet_at x 8)) (JS.toString (octet_at x 0)).
Proof.
  unfold intToIp. rewrite join_dotted, !band_255.
  rewrite !ushr_const by lia.
  unfold octet_at.
  replace (x mod 256) with ((JS.ToUint32 x / 2 ^ 0) mod 256);
    [reflexivity |].
  change (2 ^ 0) with 1. rewrite Z.div_1_r. unfold JS.ToUint32.
  change (2 ^ 32) with 4294967296.
  Z.div_mod_to_equations. lia.
Qed.

Lemma intToIp_ToUint32 x : intToIp (JS.ToUint32 x) = intToIp x.
Proof.
  rewrite !intToIp_octets. unfold octet_at. now rewrite ToUint32_idem.
Qed.

(** [ipToInt] on a text whose four parts parse to octets is their
    big-endian packing. *)
Lemma ipToInt_parts ip a b c d oa ob oc od :
  JS.split "." ip = [a; b; c; d] ->
  JS.parseInt a = Some oa -> JS.parseInt b = Some ob ->
  JS.parseInt c = Some oc -> JS.parseInt d = Some od ->
  is_octet oa -> is_octet ob -> is_octet oc -> is_octet od ->
  ipToInt ip = pack oa ob oc od.
Proof.
  intros Hs Pa Pb Pc Pd Ha Hb Hc Hd. unfold ipToInt. rewrite Hs.
  unfold JS.parseInt_at. cbn [nth_error].
  rewrite Pa, Pb, Pc, Pd. simpl JS.ToInt32_number.
  unfold is_octet in *.
  rewrite !ToInt32_small by lia.
  rewrite ushr_0, !bor_unsigned, !shl_unsigned by lia.
  rewrite !ToUint32_small by pow2_lia.
  unfold pack.
  rewrite (lor_disjoint_add oa) by pow2_lia.
  replace (oa * 2 ^ 24 + ob * 2 ^ 16) with ((oa * 2 ^ 8 + ob) * 2 ^ 16)
    by pow2_lia.
  rewrite lor_disjoint_add by pow2_lia.
  replace ((oa * 2 ^ 8 + ob) * 2 ^ 16 + oc * 2 ^ 8)
    with ((oa * 2 ^ 16 + ob * 2 ^ 8 + oc) * 2 ^ 8) by pow2_lia.
  rewrite lor_disjoint_add by pow2_lia.
  pow2_lia.
Qed.

(** Reading back the text of a number gives the number modulo 2^32. *)
Lemma ipToInt_intToIp x : ipToInt (intToIp x) = JS.ToUint32 x.
Proof.
  rewrite intToIp_octets, <- pack_octets.
  eapply ipToInt_parts.
  - apply split_dotted; apply toString_octet_no_dot, octet_at_range.
  - apply parseInt_toString_octet, octet_at_range.
  - apply parseInt_toString_octet, octet_at_range.
  - apply parseInt_toString_octet, octet_at_range.
  - apply parseInt_toString_octet, octet_at_range.
  - apply octet_at_range.
  - apply octet_at_range.
  - apply octet_at_range.
  - apply octet_at_range.
Qed.

Lemma ipToInt_range ip : 0 <= ipToInt ip < 2 ^ 32.
Proof. unfold ipToInt. rewrite ushr_0. apply ToUint32_range. Qed.


End Conversions.

(** ** The matcher and the language of a pattern *)

Section Patterns.

Lemma in_all_ascii (c : ascii) : In c all_ascii.
Proof.
  unfold all_ascii. rewrite <- (ascii_nat_embedding c).
  apply in_map, in_seq. pose proof (nat_ascii_bounded c). lia.
Qed.

Lemma in_single_map (cs : list ascii) (p : string) :
  In p (map single cs) <-> exists a, p = single a /\ In a cs.
Proof.
  rewrite in_map_iff. split; intros (a & H1 & H2); exists a; auto.
Qed.

Lemma in_lang_seq r1 r2 p :
  In p (rx_lang (Seq r1 r2)) <->
  exists p1 p2, In p1 (rx_lang r1) /\ In p2 (rx_lang r2)
                /\ p = (p1 ++ p2)%string.
Proof.
  cbn [rx_lang]. rewrite in_flat_map. split.
  - intros (p1 & H1 & H2). apply in_map_iff in H2 as (p2 & E & H2).
    exists p1, p2. auto.
  - intros (p1 & p2 & H1 & H2 & ->). exists p1. split; [assumption |].
    apply in_map_iff. exists p2. auto.
Qed.

Lemma in_lang_chr c p : In p (rx_lang (Chr c)) <-> p = single c.
Proof. cbn [rx_lang In]. intuition congruence. Qed.

Lemma string_app_assoc (a b c : string) :
  ((a ++ b) ++ c)%string = (a ++ b ++ c)%string.
Proof. induction a; simpl; congruence. Qed.

Lemma string_app_empty_r (a : string) : (a ++ "")%string = a.
Proof. induction a; simpl; congruence. Qed.

Lemma run_class (f : ascii -> bool) s t :
  In t (match s with
        | String a rest => if f a then [rest] else []
        | EmptyString => []
        end) <->
  exists a, f a = true /\ s = String a t.
Proof.
  destruct s as [| a rest]; simpl.
  - split; [tauto | intros (a & _ & E); discriminate].
  - destruct (f a) eqn:F; simpl.
    + split.
      * intros [-> | []]. exists a. auto.
      * intros (a' & _ & E). inversion E. auto.
    + split; [tauto |].
      intros (a' & F' & E). inversion E; subst. congruence.
Qed.

Lemma in_lang_range lo hi p :
  In p (rx_lang (Range lo hi)) <->
  exists a, p = single a /\ in_range lo hi a = true.
Proof.
  cbn [rx_lang]. rewrite in_single_map. split.
  - intros (a & E & H). apply filter_In in H as [_ H]. exists a. auto.
  - intros (a & E & H). exists a. split; [assumption |].
    apply filter_In. split; [apply in_all_ascii | assumption].
Qed.

Lemma in_lang_oneof cs p :
  In p (rx_lang (OneOf cs)) <->
  exists a, p = single a /\ mem_ascii a cs = true.
Proof.
  cbn [rx_lang]. rewrite in_single_map. unfold mem_ascii. split.
  - intros (a & E & H). exists a. split; [assumption |].
    apply existsb_exists. exists a. now rewrite Ascii.eqb_refl.
  - intros (a & E & H). exists a. split; [assumption |].
    apply existsb_exists in H as (x & Hx & H).
    apply Ascii.eqb_eq in H as ->. assumption.
Qed.

(** The matcher consumes exactly the texts of the language. *)
Lemma rx_run_spec r :
  forall s t,
    In t (rx_run r s) <->
    exists p, In p (rx_lang r) /\ s = (p ++ t)%string.
Proof.
  induction r as [c | lo hi | cs | r1 IH1 r2 IH2 | r1 IH1 r2 IH2 | r1 IH1];
    intros s t.
  - cbn [rx_run]. rewrite (run_class (fun a => Ascii.eqb a c)). split.
    + intros (a & E & ->). apply Ascii.eqb_eq in E as ->.
      exists (single c). split; [apply in_lang_chr |]; reflexivity.
    + intros (p & H & ->). apply in_lang_chr in H as ->.
      exists c. now rewrite Ascii.eqb_refl.
  - cbn [rx_run]. rewrite (run_class (in_range lo hi)). split.
    + intros (a & E & ->). exists (single a). split; [| reflexivity].
      apply in_lang_range. exists a. auto.
    + intros (p & H & ->). apply in_lang_range in H as (a & -> & H).
      exists a. auto.
  - cbn [rx_run]. rewrite (run_class (fun a => mem_ascii a cs)). split.
    + intros (a & E & ->). exists (single a). split; [| reflexivity].
      apply in_lang_oneof. exists a. auto.
    + intros (p & H & ->). apply in_lang_oneof in H as (a & -> & H).
      exists a. auto.
  - cbn [rx_run]. rewrite in_flat_map. split.
    + intros (u & H1 & H2).
      apply IH1 in H1 as (p1 & L1 & ->). apply IH2 in H2 as (p2 & L2 & ->).
      exists (p1 ++ p2)%string. split.
      * apply in_lang_seq. exists p1, p2. auto.
      * now rewrite string_app_assoc.
    + intros (p & H & ->). apply in_lang_seq in H as (p1 & p2 & L1 & L2 & ->).
      exists (p2 ++ t)%string. split.
      * apply IH1. exists p1. split; [assumption |].
        now rewrite string_app_assoc.
      * apply IH2. exists p2. auto.
  - cbn [rx_run rx_lang]. rewrite in_app_iff, IH1, IH2. split.
    + intros [(p & H & E) | (p & H & E)]; exists p;
        rewrite in_app_iff; auto.
    + intros (p & H & E). apply in_app_iff in H as [H | H];
        [left | right]; exists p; auto.
  - cbn [rx_run rx_lang]. rewrite in_app_iff, IH1. split.
    + intros [(p & H & E) | [<- | []]].
      * exists p. split; [right; assumption | assumption].
      * exists EmptyString. split; [left |]; reflexivity.
    + intros (p & [<- | H] & E).
      * right. left. now subst.
      * left. exists p. auto.
Qed.

Lemma rx_test_spec r s : rx_test r s = true <-> In s (rx_lang r).
Proof.
  unfold rx_test. rewrite existsb_exists. split.
  - intros (t & H & E). destruct t; [| discriminate].
    apply rx_run_spec in H as (p & H & ->).
    now rewrite string_app_empty_r.
  - intros H. exists EmptyString. split; [| reflexivity].
    apply rx_run_spec. exists s. now rewrite string_app_empty_r.
Qed.

(** A valid address is four texts of the octet pattern joined by dots. *)
Lemma isValidIP_spec ip :
  isValidIP ip = true <->
  exists a b c d,
    In a (rx_lang octet_pattern) /\ In b (rx_lang octet_pattern) /\
    In c (rx_lang octet_pattern) /\ In d (rx_lang octet_pattern) /\
    ip = dotted a b c d.
Proof.
  unfold isValidIP, ip_pattern. rewrite rx_test_spec. split.
  - intros H.
    apply in_lang_seq in H as (a & r1 & Ha & H & ->).
    apply in_lang_seq in H as (x1 & r2 & Hx1 & H & ->).
    apply in_lang_seq in H as (b & r3 & Hb & H & ->).
    apply in_lang_seq in H as (x2 & r4 & Hx2 & H & ->).
    apply in_lang_seq in H as (c & r5 & Hc & H & ->).
    apply in_lang_seq in H as (x3 & d & Hx3 & Hd & ->).
    apply in_lang_chr in Hx1 as ->. apply in_lang_chr in Hx2 as ->.
    apply in_lang_chr in Hx3 as ->.
    exists a, b, c, d. auto.
  - intros (a & b & c & d & Ha & Hb & Hc & Hd & ->).
    apply in_lang_seq. exists a. eexists. repeat split; [assumption | ].
    apply in_lang_seq. exists ".". eexists.
    repeat split; [apply in_lang_chr; reflexivity | ].
    apply in_lang_seq. exists b. eexists. repeat split; [assumption | ].
    apply in_lang_seq. exists ".". eexists.
    repeat split; [apply in_lang_chr; reflexivity | ].
    apply in_lang_seq. exists c. eexists. repeat split; [assumption | ].
    apply in_lang_seq. exists ".". exists d.
    repeat split; [apply in_lang_chr; reflexivity | assumption].
Qed.

(** Every text of the octet pattern passes [octet_lang_check]. *)
Lemma octet_lang_ok p :
  In p (rx_lang octet_pattern) -> octet_lang_check p = true.
Proof.
  revert p. apply forallb_forall. vm_compute. reflexivity.
Qed.

End Patterns.

(** ** Valid addresses *)

Section ValidAddresses.

Lemma octet_lang_facts p :
  In p (rx_lang octet_pattern) ->
  no_char "." p = true /\
  exists v, JS.parseInt p = Some v /\ is_octet v /\
            (JS.toString v = p <-> leading_zero p = false).
Proof.
  intros H. apply octet_lang_ok in H. unfold octet_lang_check in H.
  apply andb_prop in H as [Hdot H]. split; [assumption |].
  destruct (JS.parseInt p) as [v |]; [| discriminate].
  apply andb_prop in H as [H Hc]. apply andb_prop in H as [Hlo Hhi].
  exists v. split; [reflexivity |]. split.
  - unfold is_octet. lia.
  - apply Bool.eqb_prop in Hc. rewrite <- String.eqb_eq, Hc.
    apply negb_true_iff.
Qed.

(** The shape of a valid address: four dot-free parts, each the text of
    an octet. *)
Lemma valid_address_parts ip :
  isValidIP ip = true ->
  exists a b c d va vb vc vd,
    ip = dotted a b c d /\ JS.split "." ip = [a; b; c; d] /\
    ipToInt ip = pack va vb vc vd /\
    (is_octet va /\ is_octet vb /\ is_octet vc /\ is_octet vd) /\
    (no_char "." a = true /\ no_char "." b = true /\ no_char "." c = true) /\
    (JS.toString va = a <-> leading_zero a = false) /\
    (JS.toString vb = b <-> leading_zero b = false) /\
    (JS.toString vc = c <-> leading_zero c = false) /\
    (JS.toString vd = d <-> leading_zero d = false).
Proof.
  intros H. apply isValidIP_spec in H as (a & b & c & d & Ha & Hb & Hc & Hd & ->).
  apply octet_lang_facts in Ha as (Da & va & Pa & Oa & Ca).
  apply octet_lang_facts in Hb as (Db & vb & Pb & Ob & Cb).
  apply octet_lang_facts in Hc as (Dc & vc & Pc & Oc & Cc).
  apply octet_lang_facts in Hd as (Dd & vd & Pd & Od & Cd).
  exists a, b, c, d, va, vb, vc, vd.
  assert (S : JS.split "." (dotted a b c d) = [a; b; c; d])
    by now apply split_dotted.
  split; [reflexivity |]. split; [exact S |].
  split; [eapply ipToInt_parts; eassumption |].
  tauto.
Qed.

Lemma intToIp_pack a b c d :
  is_octet a -> is_octet b -> is_octet c -> is_octet d ->
  intToIp (pack a b c d) =
  dotted (JS.toString a) (JS.toString b) (JS.toString c) (JS.toString d).
Proof.
  intros Ha Hb Hc Hd. rewrite intToIp_octets.
  destruct (octet_at_pack a b c d Ha Hb Hc Hd) as (-> & -> & -> & ->).
  reflexivity.
Qed.

(** Text to number to text gives the text back exactly for the
    addresses written without leading zeros. *)
Lemma intToIp_ipToInt_iff ip :
  isValidIP ip = true ->
  (intToIp (ipToInt ip) = ip <-> canonicalIP ip = true).
Proof.
  intros H.
  destruct (valid_address_parts ip H)
    as (a & b & c & d & va & vb & vc & vd & E & S & I & (Oa & Ob & Oc & Od)
        & (Da & Db & Dc) & Ca & Cb & Cc & Cd).
  rewrite I, intToIp_pack by assumption.
  unfold canonicalIP. rewrite S. cbn [forallb].
  rewrite !andb_true_iff, !negb_true_iff. rewrite E. split.
  - intros J. apply dotted_inj in J as (Ja & Jb & Jc & Jd);
      try assumption; try (apply toString_octet_no_dot; assumption).
    tauto.
  - intros (La & Lb & Lc & Ld & _).
    apply Ca in La. apply Cb in Lb. apply Cc in Lc. apply Cd in Ld.
    congruence.
Qed.

(** In every case the text read back is a valid address with the same
    number. *)
Lemma intToIp_valid x : isValidIP (intToIp x) = true.
Proof.
  rewrite intToIp_octets. apply isValidIP_spec.
  do 4 eexists. repeat split;
    apply rx_test_spec, toString_octet_valid, octet_at_range.
Qed.

End ValidAddresses.

(** ** Masks and network boundaries *)

Section Masks.

Lemma prefix_cases (P : Z -> bool) :
  forallb P (map Z.of_nat (seq 0 32)) = true ->
  forall c, 0 <= c <= 31 -> P c = true.
Proof.
  intros H c Hc.
  rewrite forallb_forall in H. apply H.
  rewrite <- (Z2Nat.id c) by lia.
  apply in_map, in_seq. lia.
Qed.

Lemma cidrToSubnetMask_mask_of cidr :
  cidrToSubnetMask cidr = intToIp (mask_of cidr).
Proof. reflexivity. Qed.

Lemma mask_of_range cidr : 0 <= mask_of cidr < 2 ^ 32.
Proof. unfold mask_of. rewrite ushr_0. apply ToUint32_range. Qed.

Lemma ipToInt_cidrToSubnetMask cidr :
  ipToInt (cidrToSubnetMask cidr) = mask_of cidr.
Proof.
  rewrite cidrToSubnetMask_mask_of, ipToInt_intToIp.
  apply ToUint32_small, mask_of_range.
Qed.

(** Only the low five bits of the prefix reach the shift. *)
Lemma mask_of_mod cidr : mask_of cidr = mask_of (cidr mod 32).
Proof. unfold mask_of. now rewrite (ushr_count_mod _ cidr). Qed.

(** For the prefixes 0 to 31 the mask is [cidr] ones followed by zeros. *)
Lemma mask_of_value cidr :
  0 <= cidr <= 31 -> mask_of cidr = 2 ^ 32 - 2 ^ (32 - cidr).
Proof.
  intros H. apply Z.eqb_eq. revert cidr H.
  apply (prefix_cases (fun c => mask_of c =? 2 ^ 32 - 2 ^ (32 - c))).
  vm_compute. reflexivity.
Qed.

(** Prefix 32 shifts by [32 mod 32 = 0] places and gets the mask of
    prefix 0. *)
Lemma mask_of_32 : mask_of 32 = 0.
Proof. reflexivity. Qed.

Lemma subnetMaskToCidr_cidrToSubnetMask cidr :
  0 <= cidr <= 31 -> subnetMaskToCidr (cidrToSubnetMask cidr) = cidr.
Proof.
  intros H. apply Z.eqb_eq. revert cidr H.
  apply (prefix_cases
           (fun c => subnetMaskToCidr (cidrToSubnetMask c) =? c)).
  vm_compute. reflexivity.
Qed.

(** Clearing the low [k] bits. *)
Lemma land_high_mask x k :
  0 <= x < 2 ^ 32 -> 0 <= k <= 32 ->
  Z.land x (2 ^ 32 - 2 ^ k) = x - x mod 2 ^ k.
Proof.
  intros Hx Hk.
  assert (P : 0 < 2 ^ k <= 2 ^ 32).
  { split; [apply Z.pow_pos_nonneg; lia |].
    apply Z.pow_le_mono_r; lia. }
  assert (M : 2 ^ 32 - 2 ^ k = JS.ToUint32 (Z.lnot (Z.ones k))).
  { rewrite ToUint32_lnot, Z.ones_equiv.
    rewrite ToUint32_small by lia. lia. }
  rewrite M, <- (ToUint32_small x) at 1 by assumption.
  rewrite <- ToUint32_land, <- Z.ldiff_land, Z.ldiff_ones_r by lia.
  rewrite Z.shiftr_div_pow2, Z.shiftl_mul_pow2 by lia.
  pose proof (Z.mod_pos_bound x (2 ^ k) ltac:(lia)) as B.
  pose proof (Z.div_mod x (2 ^ k) ltac:(lia)) as D.
  pose proof (Z.mod_le x (2 ^ k) ltac:(lia) ltac:(lia)) as L.
  rewrite Z.mul_comm in D.
  generalize dependent (x / 2 ^ k). generalize dependent (x mod 2 ^ k).
  intros r B L q D.
  rewrite ToUint32_small; lia.
Qed.

Lemma align_down_range x k :
  0 <= x < 2 ^ 32 -> 0 <= k <= 32 ->
  0 <= x - x mod 2 ^ k <= 2 ^ 32 - 2 ^ k.
Proof.
  intros Hx Hk.
  assert (P : 0 < 2 ^ k) by (apply Z.pow_pos_nonneg; lia).
  assert (E : 2 ^ 32 = 2 ^ k * 2 ^ (32 - k)).
  { rewrite <- Z.pow_add_r by lia. f_equal. lia. }
  pose proof (Z.mod_pos_bound x (2 ^ k) ltac:(lia)) as B.
  pose proof (Z.div_mod x (2 ^ k) ltac:(lia)) as D.
  assert (Q0 : 0 <= x / 2 ^ k) by (apply Z.div_pos; lia).
  assert (Q1 : x / 2 ^ k < 2 ^ (32 - k)).
  { apply Z.div_lt_upper_bound; lia. }
  nia.
Qed.

Section Boundaries.

Variables (ip : string) (cidr : Z).
Hypothesis Hcidr : 0 <= cidr <= 31.

Let x := ipToInt ip.
Let k := 32 - cidr.
Let subnetMask := cidrToSubnetMask cidr.

(** The network address is the address with its [32 - cidr] host bits
    cleared ... *)
Lemma ipToInt_networkAddress :
  ipToInt (calculateNetworkAddress ip subnetMask) = x - x mod 2 ^ k.
Proof.
  unfold calculateNetworkAddress, subnetMask.
  rewrite ipToInt_intToIp, band_unsigned, ipToInt_cidrToSubnetMask.
  rewrite (ToUint32_small (ipToInt ip)) by apply ipToInt_range.
  rewrite (ToUint32_small (mask_of cidr)) by apply mask_of_range.
  rewrite mask_of_value by assumption.
  apply land_high_mask; [apply ipToInt_range | unfold k; lia].
Qed.

(** ... and the broadcast address has them all set. *)
Lemma ipToInt_broadcastAddress :
  ipToInt (calculateBroadcastAddress ip subnetMask)
  = x - x mod 2 ^ k + 2 ^ k - 1.
Proof.
  unfold calculateBroadcastAddress, subnetMask.
  rewrite ipToInt_intToIp, bor_unsigned, band_unsigned, ushr_0.
  rewrite ToUint32_idem, bnot_unsigned, ipToInt_cidrToSubnetMask.
  rewrite (ToUint32_small (ipToInt ip)) by apply ipToInt_range.
  rewrite (ToUint32_small (mask_of cidr)) by apply mask_of_range.
  rewrite mask_of_value by assumption.
  rewrite land_high_mask by (try apply ipToInt_range; lia).
  fold x k.
  assert (P : 0 < 2 ^ k) by (apply Z.pow_pos_nonneg; unfold k; lia).
  pose proof (Z.div_mod x (2 ^ k) ltac:(lia)) as D.
  replace (x - x mod 2 ^ k) with (x / 2 ^ k * 2 ^ k) by lia.
  replace (2 ^ 32 - 1 - (2 ^ 32 - 2 ^ k)) with (2 ^ k - 1) by lia.
  rewrite lor_disjoint_add; unfold k; lia.
Qed.

End Boundaries.

End Masks.

(** ** The partitioning loop *)

Section Loop.

Lemma pow2_nonneg e : 0 <= e -> (JS.pow2 e == inject_Z (2 ^ e))%Q.
Proof. intros H. unfold JS.pow2. now rewrite Zpower_Qpower. Qed.

Lemma pow2_fraction e : e < 0 -> (0 < JS.pow2 e /\ JS.pow2 e < 1)%Q.
Proof.
  intros H. unfold JS.pow2. split.
  - now apply Qpower_0_lt.
  - change 1%Q with (2 ^ 0)%Q. now apply Qpower_lt_compat_l.
Qed.

(** On integers, [i < Math.pow(2, e)] is [i < ceil_pow2 e]. *)
Lemma Qgtb_pow2 e i :
  Qgtb (JS.pow2 e) (inject_Z i) = (i <? ceil_pow2 e).
Proof.
  unfold Qgtb, ceil_pow2.
  destruct (Z.ltb_spec e 0) as [Neg | Pos].
  - destruct (pow2_fraction e Neg) as [F0 F1].
    destruct (Z.ltb_spec i 1) as [L | L].
    + apply negb_true_iff, not_true_is_false. intros E.
      apply Qle_bool_iff in E.
      assert (I : (inject_Z i <= 0)%Q)
        by (change 0%Q with (inject_Z 0); rewrite <- Zle_Qle; lia).
      apply (Qlt_irrefl 0).
      eapply Qlt_le_trans; [exact F0 |]. eapply Qle_trans; eassumption.
    + apply negb_false_iff, Qle_bool_iff.
      apply Qlt_le_weak. eapply Qlt_le_trans; [exact F1 |].
      change 1%Q with (inject_Z 1). rewrite <- Zle_Qle. lia.
  - destruct (Z.ltb_spec i (2 ^ e)) as [L | L].
    + apply negb_true_iff, not_true_is_false. intros E.
      apply Qle_bool_iff in E. rewrite pow2_nonneg in E by assumption.
      rewrite <- Zle_Qle in E. lia.
    + apply negb_false_iff, Qle_bool_iff.
      rewrite pow2_nonneg by assumption. rewrite <- Zle_Qle. lia.
Qed.

Lemma ceil_pow2_pos e : 1 <= ceil_pow2 e.
Proof.
  unfold ceil_pow2. destruct (Z.ltb_spec e 0); [lia |].
  pose proof (Z.pow_pos_nonneg 2 e). lia.
Qed.

Lemma zrange_length i len : List.length (zrange i len) = len.
Proof. revert i. induction len; intros i; simpl; congruence. Qed.

Lemma zrange_nth i len k :
  (k < len)%nat -> nth_error (zrange i len) k = Some (i + Z.of_nat k).
Proof.
  revert i k. induction len as [| len IH]; intros i k H; [lia |].
  destruct k as [| k]; simpl.
  - f_equal. lia.
  - rewrite IH by lia. f_equal. lia.
Qed.

Lemma zrange_In i len j :
  In j (zrange i len) <-> i <= j < i + Z.of_nat len.
Proof.
  revert i. induction len as [| len IH]; intros i; simpl; [lia |].
  rewrite IH. lia.
Qed.

Section Run.

Variables (networkInt subnetSize newCidr e subnetCount : Z).

Let loop := subnet_loop networkInt subnetSize newCidr (JS.pow2 e) subnetCount.
Let emitted := Z.min (ceil_pow2 e) subnetCount.

Lemma loop_guard_spec i :
  loop_guard (JS.pow2 e) subnetCount i = (i <? emitted).
Proof.
  unfold loop_guard, emitted. rewrite Qgtb_pow2.
  destruct (Z.ltb_spec i (ceil_pow2 e)), (Z.ltb_spec i subnetCount),
    (Z.ltb_spec i (Z.min (ceil_pow2 e) subnetCount));
    simpl; try reflexivity; lia.
Qed.

(** With enough fuel to reach [emitted], the loop pushes the subnets
    of the indices [i] to [emitted - 1] and leaves by its guard. *)
Lemma subnet_loop_run fuel i :
  (Z.to_nat (emitted - i) <= fuel)%nat ->
  loop fuel i =
  map (subnet_at networkInt subnetSize newCidr)
      (zrange i (Z.to_nat (emitted - i))).
Proof.
  revert i. induction fuel as [| fuel IH]; intros i H.
  - replace (Z.to_nat (emitted - i)) with O by lia. reflexivity.
  - unfold loop. cbn [subnet_loop]. rewrite loop_guard_spec.
    destruct (Z.ltb_spec i emitted) as [L | L].
    + replace (Z.to_nat (emitted - i))
        with (S (Z.to_nat (emitted - (i + 1)))) by lia.
      cbn [zrange map]. f_equal. apply IH. lia.
    + replace (Z.to_nat (emitted - i)) with O by lia. reflexivity.
Qed.

(** More fuel than that changes nothing. *)
Lemma subnet_loop_fuel fuel fuel' i :
  (Z.to_nat (emitted - i) <= fuel)%nat ->
  (Z.to_nat (emitted - i) <= fuel')%nat ->
  loop fuel i = loop fuel' i.
Proof. intros H H'. now rewrite !subnet_loop_run. Qed.

End Run.

(** The list [generateSubnets] returns for a count of at least 1. *)
Lemma generateSubnets_run ip cidr subnetCount :
  1 <= subnetCount ->
  generateSubnets ip cidr subnetCount =
  map (subnet_at
         (ipToInt (calculateNetworkAddress ip (cidrToSubnetMask cidr)))
         (2 ^ (32 - newCidr_of cidr subnetCount))
         (newCidr_of cidr subnetCount))
      (zrange 0
         (Z.to_nat
            (Z.min (ceil_pow2 (newCidr_of cidr subnetCount - cidr))
                   subnetCount))).
Proof.
  intros H. unfold generateSubnets, JS.ceil_log2.
  destruct (Z.ltb_spec subnetCount 0); [lia |].
  destruct (Z.eqb_spec subnetCount 0); [lia |].
  cbn [JS.min_plus]. fold (newCidr_of cidr subnetCount).
  rewrite subnet_loop_run by lia.
  now rewrite Z.sub_0_r.
Qed.

(** For a count of 0 or less the list is empty. *)
Lemma generateSubnets_nonpositive ip cidr subnetCount :
  subnetCount <= 0 -> generateSubnets ip cidr subnetCount = [].
Proof.
  intros H. unfold generateSubnets, JS.ceil_log2.
  destruct (Z.ltb_spec subnetCount 0); [reflexivity |].
  destruct (Z.eqb_spec subnetCount 0); [reflexivity | lia].
Qed.

End Loop.

(** ** The worked examples of the specification *)

Example isValidIP_examples :
  isValidIP "192.168.1.10" = true /\ isValidIP "256.1.1.1" = false /\
  isValidIP "1.1.1" = false /\ isValidIP "1.1.1.1.1" = false /\
  isValidIP "1.1.1.a" = false /\ isValidIP "" = false.
Proof. repeat split. Qed.

Example calculateIPInfo_192_168_1_10_prefix24 :
  calculateIPInfo "192.168.1.10" 24 =
  {| IPResult.networkAddress := "192.168.1.0";
     IPResult.broadcastAddress := "192.168.1.255";
     IPResult.firstValidHost := "192.168.1.1";
     IPResult.lastValidHost := "192.168.1.254";
     IPResult.totalHosts := 256;
     IPResult.usableHosts := 254;
     IPResult.cidr := 24;
     IPResult.subnetMask := "255.255.255.0";
     IPResult.binarySubnetMask := "11111111 11111111 11111111 00000000";
     IPResult.binaryIpAddress := "11000000 10101000 00000001 00001010";
     IPResult.binaryNetworkAddress := "11000000 10101000 00000001 00000000";
     IPResult.wildcardMask := "0.0.0.255";
     IPResult.subnetBits := 8;
     IPResult.hostBits := 8 |}.
Proof. vm_compute. reflexivity. Qed.

Example calculateIPInfo_10_0_0_1_prefix0 :
  IPResult.networkAddress (calculateIPInfo "10.0.0.1" 0) = "0.0.0.0" /\
  IPResult.broadcastAddress (calculateIPInfo "10.0.0.1" 0)
  = "255.255.255.255".
Proof. vm_compute. split; reflexivity. Qed.

Example generateSubnets_192_168_0_0_prefix24_into4 :
  map (fun s => (Subnet.id s, Subnet.networkAddress s, Subnet.cidr s,
                 Subnet.usableHosts s))
      (generateSubnets "192.168.0.0" 24 4)
  = [ (1, "192.168.0.0", 26, 62); (2, "192.168.0.64", 26, 62);
      (3, "192.168.0.128", 26, 62); (4, "192.168.0.192", 26, 62) ].
Proof. vm_compute. reflexivity. Qed.

(** ** Prefix 32 *)

(** At prefix 32 the mask is zero, whatever the address: the network is
    0.0.0.0, the broadcast 255.255.255.255, and the host range runs from
    0.0.0.1 up to 255.255.255.254. *)
Lemma calculateIPInfo_prefix32 ip :
  let r := calculateIPInfo ip 32 in
  IPResult.subnetMask r = "0.0.0.0" /\
  IPResult.networkAddress r = "0.0.0.0" /\
  IPResult.broadcastAddress r = "255.255.255.255" /\
  IPResult.firstValidHost r = "0.0.0.1" /\
  IPResult.lastValidHost r = "255.255.255.254".
Proof.
  assert (N : calculateNetworkAddress ip "0.0.0.0" = "0.0.0.0").
  { unfold calculateNetworkAddress.
    rewrite <- intToIp_ToUint32, band_unsigned.
    change (JS.ToUint32 (ipToInt "0.0.0.0")) with 0.
    now rewrite Z.land_0_r. }
  assert (B : calculateBroadcastAddress ip "0.0.0.0" = "255.255.255.255").
  { unfold calculateBroadcastAddress.
    rewrite <- intToIp_ToUint32, bor_unsigned, band_unsigned.
    change (JS.ToUint32 (ipToInt "0.0.0.0")) with 0.
    rewrite Z.land_0_r.
    change (ipToInt "0.0.0.0") with 0. reflexivity. }
  cbn zeta.
  cbn [calculateIPInfo IPResult.subnetMask IPResult.networkAddress
       IPResult.broadcastAddress IPResult.firstValidHost
       IPResult.lastValidHost].
  change (cidrToSubnetMask 32) with "0.0.0.0".
  rewrite N, B. repeat split.
Qed.

(** * The claims *)

(** ** Mask and prefix *)

(** C1 (the code departs from the claim at prefix 32).  The shift count
    of [0xffffffff >>> cidr] is taken modulo 32, so prefix 32 shifts by 0
    places: [cidrToSubnetMask 32] is the all-zero mask "0.0.0.0", the same
    as for prefix 0, and converting it back gives 0, not 32. *)
Theorem cidrToSubnetMask_32_is_zero_mask :
  cidrToSubnetMask 32 = "0.0.0.0" /\
  subnetMaskToCidr (cidrToSubnetMask 32) = 0 /\
  cidrToSubnetMask 0 = "0.0.0.0" /\
  subnetMaskToCidr (cidrToSubnetMask 0) = 0.
Proof. repeat split. Qed.

(** C2 (the code departs from the claim).  With the all-zero mask of
    prefix 32, [calculateIPInfo "10.0.0.5" 32] reports the network
    0.0.0.0 and the broadcast 255.255.255.255 instead of 10.0.0.5 twice;
    the host counts are 1 and 0 as claimed.  The prefix field of the
    network tools lets this call through. *)
Theorem calculateIPInfo_10_0_0_5_prefix32 :
  let r := calculateIPInfo "10.0.0.5" 32 in
  handleCidrChange "10.0.0.5" "32" = Some r /\
  IPResult.subnetMask r = "0.0.0.0" /\
  IPResult.networkAddress r = "0.0.0.0" /\
  IPResult.broadcastAddress r = "255.255.255.255" /\
  IPResult.totalHosts r = 1%Q /\
  IPResult.usableHosts r = 0%Q.
Proof. vm_compute. repeat split. Qed.

(** ** Host range of the last prefixes *)

(** C3 (the code departs from the claim at prefix 32).  Prefix 32 gets
    the all-zero mask, so for the valid address "10.0.0.5" the result has
    the first host 0.0.0.1 and the last host 255.255.255.254: the first
    host is not above the last one.  On the network and broadcast address
    the claim expects there, 10.0.0.5 itself, the two host functions give
    10.0.0.6 and 10.0.0.4, the first above the last. *)
Theorem hosts_in_order_at_prefix32 :
  isValidIP "10.0.0.5" = true /\
  (exists r,
      calculateIPInfo_outcome "10.0.0.5" 32 = inr r /\
      IPResult.subnetMask r = "0.0.0.0" /\
      IPResult.firstValidHost r = "0.0.0.1" /\
      IPResult.lastValidHost r = "255.255.255.254") /\
  ~ hosts_reversed "10.0.0.5" 32 /\
  calculateFirstHost "10.0.0.5" = "10.0.0.6" /\
  calculateLastHost "10.0.0.5" = "10.0.0.4" /\
  ipToInt (calculateFirstHost "10.0.0.5")
  > ipToInt (calculateLastHost "10.0.0.5").
Proof.
  split; [reflexivity |]. split.
  { eexists. split; [reflexivity |]. vm_compute. repeat split. }
  split.
  { intros (r & E & H). injection E as <-.
    vm_compute in H. discriminate. }
  vm_compute. repeat split.
Qed.

(** At prefix 31 what C3 says does hold.  For every valid address,
    [calculateIPInfo] returns a result whose first host is the broadcast
    address and whose last host is the network address: the first host
    is one above the last. *)
Theorem hosts_reversed_at_prefix31 (ip : string) :
  isValidIP ip = true ->
  hosts_reversed ip 31 /\
  ipToInt (IPResult.firstValidHost (calculateIPInfo ip 31))
  = ipToInt (IPResult.lastValidHost (calculateIPInfo ip 31)) + 1 /\
  IPResult.firstValidHost (calculateIPInfo ip 31)
  = IPResult.broadcastAddress (calculateIPInfo ip 31) /\
  IPResult.lastValidHost (calculateIPInfo ip 31)
  = IPResult.networkAddress (calculateIPInfo ip 31).
Proof.
  intros _.
  pose proof (ipToInt_networkAddress ip 31 ltac:(lia)) as N.
  pose proof (ipToInt_broadcastAddress ip 31 ltac:(lia)) as B.
  change (2 ^ (32 - 31)) with 2 in N, B.
  pose proof (ipToInt_range ip) as R.
  assert (F : ipToInt (IPResult.firstValidHost (calculateIPInfo ip 31))
              = ipToInt ip - ipToInt ip mod 2 + 1).
  { cbn [calculateIPInfo IPResult.firstValidHost].
    unfold calculateFirstHost. rewrite ipToInt_intToIp, N.
    apply ToUint32_small. Z.div_mod_to_equations. pow2_lia. }
  assert (L : ipToInt (IPResult.lastValidHost (calculateIPInfo ip 31))
              = ipToInt ip - ipToInt ip mod 2).
  { cbn [calculateIPInfo IPResult.lastValidHost].
    unfold calculateLastHost. rewrite ipToInt_intToIp, B.
    rewrite ToUint32_small; Z.div_mod_to_equations; pow2_lia. }
  split; [| split; [| split]].
  - eexists. split; [reflexivity | lia].
  - lia.
  - cbn [calculateIPInfo IPResult.firstValidHost IPResult.broadcastAddress].
    unfold calculateFirstHost. rewrite N.
    transitivity
      (intToIp (ipToInt (calculateBroadcastAddress ip (cidrToSubnetMask 31)))).
    + rewrite B. f_equal. lia.
    + unfold calculateBroadcastAddress. rewrite ipToInt_intToIp.
      apply intToIp_ToUint32.
  - cbn [calculateIPInfo IPResult.lastValidHost IPResult.networkAddress].
    unfold calculateLastHost. rewrite B.
    transitivity
      (intToIp (ipToInt (calculateNetworkAddress ip (cidrToSubnetMask 31)))).
    + rewrite N. f_equal. lia.
    + unfold calculateNetworkAddress. rewrite ipToInt_intToIp.
      apply intToIp_ToUint32.
Qed.

Lemma hosts_reversed_at_prefix31_witness :
  isValidIP "10.0.0.5" = true /\
  hosts_reversed "10.0.0.5" 31 /\
  IPResult.firstValidHost (calculateIPInfo "10.0.0.5" 31)
  = IPResult.broadcastAddress (calculateIPInfo "10.0.0.5" 31) /\
  IPResult.lastValidHost (calculateIPInfo "10.0.0.5" 31)
  = IPResult.networkAddress (calculateIPInfo "10.0.0.5" 31).
Proof.
  split; [reflexivity |].
  destruct (hosts_reversed_at_prefix31 "10.0.0.5") as (H & _ & F & L);
    [reflexivity |].
  split; [exact H |]. split; [exact F | exact L].
Defined.

(** ** Validation *)

(** C4, as stated, fails: [calculateIPInfo] returns a result for the
    malformed text "256.1.1.1" (read as 0.1.1.1) and for the prefix 33
    (whose mask is that of prefix 1). *)
Lemma calculateIPInfo_accepts_invalid_input :
  (isValidIP "256.1.1.1" = false /\
   calculateIPInfo_outcome "256.1.1.1" 24 <> inl InvalidAddress /\
   IPResult.networkAddress (calculateIPInfo "256.1.1.1" 24) = "0.1.1.0") /\
  (isValidIP "1.1.1.1" = true /\
   calculateIPInfo_outcome "1.1.1.1" 33 <> inl InvalidPrefix /\
   IPResult.subnetMask (calculateIPInfo "1.1.1.1" 33) = "128.0.0.0").
Proof.
  repeat split; try reflexivity; unfold calculateIPInfo_outcome; discriminate.
Qed.

(** C4 (amended).  [calculateIPInfo] checks neither input and has no
    failure result: for every text and every integer prefix it returns a
    result, whose mask is that of the prefix modulo 32.  A malformed
    address is refused one level up: [IpForm.handleSubmit] reports a
    validation error unless [isValidIP] accepts the text, and only then
    calls [calculateIPInfo]. *)
Theorem validation_is_done_by_the_form (ip : string) (cidr : Z) :
  (exists r,
      calculateIPInfo_outcome ip cidr = inr r /\
      IPResult.subnetMask r = cidrToSubnetMask (cidr mod 32)) /\
  handleSubmit ip cidr =
    if isValidIP ip then Calculated (calculateIPInfo ip cidr)
    else IpError (if is_empty ip then "validation.ipRequired"
                  else "validation.enterValidIp").
Proof.
  split.
  - eexists. split; [reflexivity |].
    cbn [calculateIPInfo IPResult.subnetMask].
    now rewrite !cidrToSubnetMask_mask_of, mask_of_mod.
  - unfold handleSubmit, handleCalculate.
    destruct ip as [| c ip]; [reflexivity |].
    cbn [is_empty]. now destruct (isValidIP (String c ip)).
Qed.

(** C5, as stated, fails: [generateSubnets] returns one subnet for the
    count 1 and sixty-four subnets for the count 2000. *)
Lemma generateSubnets_accepts_any_count :
  generateSubnets_outcome "192.168.0.0" 24 1 <> inl InvalidSubnetCount /\
  List.length (generateSubnets "192.168.0.0" 24 1) = 1%nat /\
  generateSubnets_outcome "192.168.0.0" 24 2000 <> inl InvalidSubnetCount /\
  List.length (generateSubnets "192.168.0.0" 24 2000) = 64%nat.
Proof.
  repeat split; try (unfold generateSubnets_outcome; discriminate);
    vm_compute; reflexivity.
Qed.

(** C5 (amended).  The range of the count is checked by the caller:
    when [SubnetGenerator.handleGenerate] gets a list of subnets, the text
    of the count field parses to a count between 2 and 1024 and the list
    is the one [generateSubnets] returns for it. [generateSubnets] itself
    has no failure result whatever the count. *)
Theorem count_is_checked_by_the_caller
  (ip : string) (cidr : Z) (subnetCount : string) (subnets : list Subnet.t) :
  handleGenerate ip cidr subnetCount = Some subnets ->
  (exists count,
      JS.parseInt subnetCount = Some count /\
      2 <= count <= 1024 /\
      generateSubnets_outcome ip cidr count = inr subnets) /\
  (forall count, exists l, generateSubnets_outcome ip cidr count = inr l).
Proof.
  intros H. split.
  - unfold handleGenerate in H.
    destruct (JS.parseInt subnetCount) as [count |]; [| discriminate].
    destruct ((2 <=? count) && (count <=? 1024)) eqn:G; [| discriminate].
    apply andb_prop in G as [G1 G2].
    apply Z.leb_le in G1, G2.
    unfold handleGenerateSubnets in H.
    destruct (negb (is_empty ip) && negb (cidr =? 0)); [| discriminate].
    injection H as <-.
    exists count. repeat split; assumption.
  - intros count. eexists. reflexivity.
Qed.

Lemma count_is_checked_by_the_caller_witness :
  exists subnets,
    handleGenerate "192.168.0.0" 24 "4" = Some subnets /\
    (exists count,
        JS.parseInt "4" = Some count /\
        2 <= count <= 1024 /\
        generateSubnets_outcome "192.168.0.0" 24 count = inr subnets).
Proof.
  eexists. split; [vm_compute; reflexivity |].
  eapply (count_is_checked_by_the_caller "192.168.0.0" 24 "4").
  vm_compute. reflexivity.
Defined.

(** ** Round trips *)

(** C6, as stated, fails: "010.0.0.1" is accepted by [isValidIP] and
    comes back as "10.0.0.1". *)
Lemma leading_zero_is_not_restored :
  isValidIP "010.0.0.1" = true /\
  intToIp (ipToInt "010.0.0.1") <> "010.0.0.1".
Proof. split; [reflexivity | vm_compute; discriminate]. Qed.

(** C6 (amended).  For every text accepted by [isValidIP], converting it
    to a number and back returns the text itself exactly when none of its
    octets is written with a leading zero; in every case the text returned
    is a valid address of the same number. *)
Theorem intToIp_ipToInt_canonical (ip : string) :
  isValidIP ip = true ->
  (intToIp (ipToInt ip) = ip <-> canonicalIP ip = true) /\
  isValidIP (intToIp (ipToInt ip)) = true /\
  ipToInt (intToIp (ipToInt ip)) = ipToInt ip.
Proof.
  intros H. split; [| split].
  - now apply intToIp_ipToInt_iff.
  - apply intToIp_valid.
  - rewrite ipToInt_intToIp. apply ToUint32_small, ipToInt_range.
Qed.

Lemma intToIp_ipToInt_canonical_witness :
  isValidIP "192.168.1.10" = true /\
  canonicalIP "192.168.1.10" = true /\
  intToIp (ipToInt "192.168.1.10") = "192.168.1.10".
Proof.
  split; [reflexivity |]. split; [reflexivity |].
  apply (intToIp_ipToInt_canonical "192.168.1.10"); reflexivity.
Defined.

(** C7.  For every unsigned 32-bit integer, also with the top bit set,
    [ipToInt (intToIp V)] is [V]: it is not negative and it is the
    big-endian packing of the four octets that [intToIp] prints. *)
Theorem ipToInt_intToIp_uint32 (V : Z) :
  0 <= V < 2 ^ 32 ->
  ipToInt (intToIp V) = V /\
  0 <= ipToInt (intToIp V) /\
  intToIp V =
    dotted (JS.toString (octet_at V 24)) (JS.toString (octet_at V 16))
           (JS.toString (octet_at V 8)) (JS.toString (octet_at V 0)) /\
  ipToInt (intToIp V) =
    pack (octet_at V 24) (octet_at V 16) (octet_at V 8) (octet_at V 0).
Proof.
  intros H.
  assert (E : ipToInt (intToIp V) = V)
    by (rewrite ipToInt_intToIp; now apply ToUint32_small).
  repeat split.
  - exact E.
  - lia.
  - apply intToIp_octets.
  - rewrite E, pack_octets. symmetry. now apply ToUint32_small.
Qed.

Lemma ipToInt_intToIp_uint32_witness :
  intToIp 4294901761 = "255.255.0.1" /\
  ipToInt (intToIp 4294901761) = 4294901761.
Proof.
  split; [reflexivity |].
  apply (ipToInt_intToIp_uint32 4294901761). vm_compute. split; congruence.
Defined.

(** C10.  The validator accepts octets written with leading zeros:
    "010.0.0.1" and "192.168.001.010" are valid, yet [intToIp] never
    prints either of them (it prints "10.0.0.1" and "192.168.1.10" for
    their numbers). *)
Theorem isValidIP_accepts_leading_zeros :
  (isValidIP "010.0.0.1" = true /\
   intToIp (ipToInt "010.0.0.1") = "10.0.0.1" /\
   forall v, intToIp v <> "010.0.0.1") /\
  (isValidIP "192.168.001.010" = true /\
   intToIp (ipToInt "192.168.001.010") = "192.168.1.10" /\
   forall v, intToIp v <> "192.168.001.010").
Proof.
  assert (G : forall ip canon,
             intToIp (ipToInt ip) = canon -> canon <> ip ->
             forall v, intToIp v <> ip).
  { intros ip canon E N v Hv.
    apply N. rewrite <- E, <- Hv, ipToInt_intToIp. apply intToIp_ToUint32. }
  split; (split; [reflexivity |]); (split; [reflexivity |]).
  - apply (G _ "10.0.0.1"); [reflexivity | discriminate].
  - apply (G _ "192.168.1.10"); [reflexivity | discriminate].
Qed.

(** ** Partitioning *)

(** The clamp at 30 leaves every subnet at least four addresses. *)
Lemma subnetSize_min cidr subnetCount :
  newCidr_of cidr subnetCount <= 30 /\
  4 <= 2 ^ (32 - newCidr_of cidr subnetCount).
Proof.
  assert (N : newCidr_of cidr subnetCount <= 30)
    by (unfold newCidr_of; lia).
  split; [exact N |].
  change 4 with (2 ^ 2). apply Z.pow_le_mono_r; lia.
Qed.

Section Partitioning.

Variables (ip : string) (cidr subnetCount : Z).
Hypothesis Hcount : 1 <= subnetCount.

Let newCidr := newCidr_of cidr subnetCount.
Let networkInt :=
  ipToInt (calculateNetworkAddress ip (cidrToSubnetMask cidr)).
Let subnetSize := 2 ^ (32 - newCidr).
Let emitted := Z.min (ceil_pow2 (newCidr - cidr)) subnetCount.

Lemma generateSubnets_length :
  Z.of_nat (List.length (generateSubnets ip cidr subnetCount)) = emitted.
Proof.
  rewrite generateSubnets_run by assumption.
  rewrite length_map, zrange_length.
  fold newCidr emitted.
  pose proof (ceil_pow2_pos (newCidr - cidr)). unfold emitted. lia.
Qed.

Lemma generateSubnets_nth i s :
  nth_error (generateSubnets ip cidr subnetCount) i = Some s ->
  Z.of_nat i < emitted /\
  s = subnet_at networkInt subnetSize newCidr (Z.of_nat i).
Proof.
  intros H.
  assert (L : (i < List.length (generateSubnets ip cidr subnetCount))%nat)
    by (apply nth_error_Some; congruence).
  pose proof generateSubnets_length as E.
  split; [lia |].
  rewrite generateSubnets_run in H by assumption.
  rewrite nth_error_map, zrange_nth in H.
  - cbn [option_map] in H. injection H as <-. reflexivity.
  - rewrite generateSubnets_run, length_map, zrange_length in L
      by assumption.
    exact L.
Qed.

Lemma generateSubnets_In s :
  In s (generateSubnets ip cidr subnetCount) ->
  exists i, 0 <= i < emitted /\
            s = subnet_at networkInt subnetSize newCidr i.
Proof.
  intros H. apply In_nth_error in H as (i & H).
  apply generateSubnets_nth in H as (L & ->).
  exists (Z.of_nat i). split; [lia | reflexivity].
Qed.

(** Two subnets are only produced below the clamp, where the children
    tile the parent block from its network address on. *)
Lemma subnets_fit i :
  0 <= cidr -> 0 <= i -> i + 2 <= emitted ->
  0 <= networkInt /\ networkInt + (i + 2) * subnetSize <= 2 ^ 32.
Proof.
  intros Hc Hi He.
  destruct (subnetSize_min cidr subnetCount) as [N S4].
  fold newCidr subnetSize in N, S4.
  assert (E1 : 0 <= newCidr - cidr).
  { destruct (Z.lt_ge_cases (newCidr - cidr) 0) as [Neg | Pos];
      [| assumption].
    unfold emitted, ceil_pow2 in He.
    apply Z.ltb_lt in Neg. rewrite Neg in He. lia. }
  assert (C : ceil_pow2 (newCidr - cidr) = 2 ^ (newCidr - cidr)).
  { unfold ceil_pow2. destruct (Z.ltb_spec (newCidr - cidr) 0); [lia |].
    reflexivity. }
  assert (T : 2 ^ (newCidr - cidr) * subnetSize = 2 ^ (32 - cidr)).
  { unfold subnetSize. rewrite <- Z.pow_add_r by lia. f_equal. lia. }
  assert (R : 0 <= networkInt <= 2 ^ 32 - 2 ^ (32 - cidr)).
  { unfold networkInt. rewrite ipToInt_networkAddress by lia.
    apply align_down_range; [apply ipToInt_range | lia]. }
  assert (B : i + 2 <= 2 ^ (newCidr - cidr)) by (unfold emitted in He; lia).
  split; [lia |].
  assert ((i + 2) * subnetSize <= 2 ^ (newCidr - cidr) * subnetSize)
    by (apply Z.mul_le_mono_nonneg_r; lia).
  lia.
Qed.

End Partitioning.

(** C8.  For a valid address, a base prefix from 0 to 32 and a count
    from 2 to 1024, every subnet of the list carries the same prefix
    [newCidr], and for every two neighbours of the list the broadcast
    address of the first plus one is the network address of the second,
    as unsigned 32-bit integers and without wrapping around; each of the
    two reaches from its network address up to its broadcast address, so
    that the subnets do not overlap and their addresses increase. *)
Theorem generateSubnets_contiguous (ip : string) (cidr subnetCount : Z) :
  isValidIP ip = true ->
  0 <= cidr <= 32 ->
  2 <= subnetCount <= 1024 ->
  let subnets := generateSubnets ip cidr subnetCount in
  (forall s, In s subnets ->
             Subnet.cidr s = newCidr_of cidr subnetCount) /\
  (forall i s s',
      nth_error subnets i = Some s ->
      nth_error subnets (S i) = Some s' ->
      ipToInt (Subnet.broadcastAddress s) + 1
      = ipToInt (Subnet.networkAddress s') /\
      ipToInt (Subnet.networkAddress s)
      < ipToInt (Subnet.broadcastAddress s) /\
      ipToInt (Subnet.networkAddress s')
      < ipToInt (Subnet.broadcastAddress s')).
Proof.
  intros _ Hc Hn subnets. split.
  - intros s H.
    apply generateSubnets_In in H as (i & _ & ->); [reflexivity | lia].
  - intros i s s' H H'.
    apply generateSubnets_nth in H as (L & ->); [| lia].
    apply generateSubnets_nth in H' as (L' & ->); [| lia].
    destruct (subnetSize_min cidr subnetCount) as [_ S4].
    destruct (subnets_fit ip cidr subnetCount (Z.of_nat i))
      as [N0 N1]; try lia.
    cbn [subnet_at Subnet.broadcastAddress Subnet.networkAddress].
    rewrite !ipToInt_intToIp.
    set (networkInt :=
           ipToInt (calculateNetworkAddress ip (cidrToSubnetMask cidr))) in *.
    set (subnetSize := 2 ^ (32 - newCidr_of cidr subnetCount)) in *.
    rewrite !ToUint32_small; nia.
Qed.

Lemma generateSubnets_contiguous_witness :
  let subnets := generateSubnets "192.168.0.0" 24 4 in
  (forall s, In s subnets -> Subnet.cidr s = 26) /\
  (forall i s s',
      nth_error subnets i = Some s ->
      nth_error subnets (S i) = Some s' ->
      ipToInt (Subnet.broadcastAddress s) + 1
      = ipToInt (Subnet.networkAddress s') /\
      ipToInt (Subnet.networkAddress s)
      < ipToInt (Subnet.broadcastAddress s) /\
      ipToInt (Subnet.networkAddress s')
      < ipToInt (Subnet.broadcastAddress s')).
Proof.
  apply (generateSubnets_contiguous "192.168.0.0" 24 4);
    [reflexivity | lia | lia].
Defined.

(** C9.  For a valid address, a base prefix from 0 to 30 and a count from
    2 to 1024, [generateSubnets] works with
    [newCidr = min (cidr + ceil (log2 subnetCount)) 30] and returns exactly
    [min (2 ^ (newCidr - cidr)) subnetCount] subnets, fewer than requested
    when the clamp at 30 applies; each has the prefix [newCidr] and
    [2 ^ (32 - newCidr) - 2] usable hosts, which is at least 2. *)
Theorem generateSubnets_count (ip : string) (cidr subnetCount : Z) :
  isValidIP ip = true ->
  0 <= cidr <= 30 ->
  2 <= subnetCount <= 1024 ->
  let bitsNeeded := Z.log2_up subnetCount in
  let newCidr := Z.min (cidr + bitsNeeded) 30 in
  let subnets := generateSubnets ip cidr subnetCount in
  2 ^ (bitsNeeded - 1) < subnetCount <= 2 ^ bitsNeeded /\
  JS.min_plus cidr (JS.ceil_log2 subnetCount) 30 = JS.XFin newCidr /\
  Z.of_nat (List.length subnets) = Z.min (2 ^ (newCidr - cidr)) subnetCount /\
  (30 < cidr + bitsNeeded -> Z.of_nat (List.length subnets) < subnetCount) /\
  (forall s, In s subnets ->
             Subnet.cidr s = newCidr /\
             Subnet.usableHosts s = 2 ^ (32 - newCidr) - 2 /\
             2 <= Subnet.usableHosts s).
Proof.
  intros _ Hc Hn bitsNeeded newCidr subnets.
  assert (Spec : 2 ^ (bitsNeeded - 1) < subnetCount <= 2 ^ bitsNeeded).
  { unfold bitsNeeded. rewrite Z.sub_1_r. apply Z.log2_up_spec. lia. }
  assert (Bits : 1 <= bitsNeeded).
  { pose proof (Z.log2_up_pos subnetCount ltac:(lia)). unfold bitsNeeded. lia. }
  assert (E : 0 <= newCidr - cidr) by (unfold newCidr; lia).
  assert (Len : Z.of_nat (List.length subnets)
                = Z.min (2 ^ (newCidr - cidr)) subnetCount).
  { unfold subnets. rewrite generateSubnets_length by lia.
    fold bitsNeeded. unfold newCidr_of. fold bitsNeeded newCidr.
    unfold ceil_pow2. destruct (Z.ltb_spec (newCidr - cidr) 0); [lia |].
    reflexivity. }
  split; [exact Spec |]. split; [| split; [exact Len | split]].
  - unfold JS.ceil_log2.
    destruct (Z.ltb_spec subnetCount 0); [lia |].
    destruct (Z.eqb_spec subnetCount 0); [lia |]. reflexivity.
  - intros Clamp. rewrite Len.
    assert (2 ^ (newCidr - cidr) <= 2 ^ (bitsNeeded - 1))
      by (apply Z.pow_le_mono_r; unfold newCidr; lia).
    lia.
  - intros s H.
    apply generateSubnets_In in H as (i & _ & ->); [| lia].
    destruct (subnetSize_min cidr subnetCount) as [_ S4].
    cbn [subnet_at Subnet.cidr Subnet.usableHosts].
    unfold newCidr_of in *. fold bitsNeeded newCidr in S4 |- *.
    repeat split. lia.
Qed.

Lemma generateSubnets_count_witness :
  let subnets := generateSubnets "192.168.0.0" 29 4 in
  Z.of_nat (List.length subnets) = 2 /\
  (forall s, In s subnets ->
             Subnet.cidr s = 30 /\ Subnet.usableHosts s = 2 /\
             2 <= Subnet.usableHosts s).
Proof.
  pose proof (generateSubnets_count "192.168.0.0" 29 4
                ltac:(reflexivity) ltac:(lia) ltac:(lia)) as H.
  cbv zeta in H. destruct H as (_ & _ & Len & _ & Each).
  split; [exact Len | exact Each].
Defined.

(** * Further properties of the code *)

(** ** What [isValidIP] accepts *)

Section ValidatorShape.

Lemma split_not_nil sep s : JS.split sep s <> [].
Proof.
  destruct s as [| c s]; simpl; [discriminate |].
  destruct (Ascii.eqb c sep); [discriminate |].
  destruct (JS.split sep s); discriminate.
Qed.

Lemma concat_cons2 sep (x y : string) l :
  String.concat sep (x :: y :: l)
  = (x ++ sep ++ String.concat sep (y :: l))%string.
Proof. reflexivity. Qed.

(** Joining what was split gives the text back. *)
Lemma join_split sep s : JS.join (single sep) (JS.split sep s) = s.
Proof.
  unfold JS.join. induction s as [| c s IH]; [reflexivity |].
  cbn [JS.split]. pose proof (split_not_nil sep s) as NN.
  destruct (JS.split sep s) as [| p ps] eqn:E; [contradiction |].
  destruct (Ascii.eqb_spec c sep) as [-> | N].
  - rewrite concat_cons2, IH. reflexivity.
  - destruct ps as [| q qs].
    + cbn [String.concat] in *. now rewrite IH.
    + rewrite concat_cons2 in *.
      change (String c p ++ ?t)%string with (String c (p ++ t))%string.
      now rewrite IH.
Qed.

Lemma in_digit_chars c : JS.is_digit c = true -> In c digit_chars.
Proof.
  intros H. apply filter_In. split; [apply in_all_ascii | exact H].
Qed.

Lemma in_digit_texts p :
  all_chars JS.is_digit p = true ->
  (1 <= String.length p <= 3)%nat ->
  In p digit_texts.
Proof.
  intros D L. unfold digit_texts. cbv zeta.
  destruct p as [| c1 [| c2 [| c3 [| c4 p]]]]; simpl in L; try lia;
    simpl in D; repeat (apply andb_prop in D as [?D D]).
  - apply in_or_app. left. apply (in_map single). now apply in_digit_chars.
  - apply in_or_app. right. apply in_or_app. left.
    apply in_flat_map. exists c1. split; [now apply in_digit_chars |].
    apply (in_map (String c1)), (in_map single). now apply in_digit_chars.
  - apply in_or_app. right. apply in_or_app. right.
    apply in_flat_map. exists c1. split; [now apply in_digit_chars |].
    apply (in_map (String c1)). apply in_flat_map. exists c2.
    split; [now apply in_digit_chars |].
    apply (in_map (String c2)), (in_map single). now apply in_digit_chars.
Qed.

Lemma octet_text_in_lang p :
  octet_text p = true -> In p (rx_lang octet_pattern).
Proof.
  intros H. apply rx_test_spec.
  assert (A : forallb (fun q => implb (octet_text q)
                                      (rx_test octet_pattern q))
                      digit_texts = true)
    by (vm_compute; reflexivity).
  rewrite forallb_forall in A.
  assert (I : In p digit_texts).
  { unfold octet_text in H.
    apply andb_prop in H as [H _]. apply andb_prop in H as [H L3].
    apply andb_prop in H as [D L1].
    apply Nat.leb_le in L1, L3. apply in_digit_texts; [exact D | lia]. }
  specialize (A p I). rewrite H in A. exact A.
Qed.

Lemma lang_octet_text p :
  In p (rx_lang octet_pattern) -> octet_text p = true.
Proof. revert p. apply forallb_forall. vm_compute. reflexivity. Qed.

(** [isValidIP] accepts exactly the texts that split on dots into four
    parts, each written with one to three decimal digits and worth at
    most 255. *)
Theorem isValidIP_iff_four_octets ip :
  isValidIP ip = true <->
  exists a b c d,
    JS.split "." ip = [a; b; c; d] /\
    octet_text a = true /\ octet_text b = true /\
    octet_text c = true /\ octet_text d = true.
Proof.
  split.
  - intros H.
    apply isValidIP_spec in H as (a & b & c & d & Ha & Hb & Hc & Hd & ->).
    exists a, b, c, d.
    split.
    + apply split_dotted; now apply octet_lang_facts.
    + repeat split; now apply lang_octet_text.
  - intros (a & b & c & d & S & Ha & Hb & Hc & Hd).
    apply isValidIP_spec. exists a, b, c, d.
    split; [now apply octet_text_in_lang |].
    split; [now apply octet_text_in_lang |].
    split; [now apply octet_text_in_lang |].
    split; [now apply octet_text_in_lang |].
    rewrite <- (join_split "." ip), S. reflexivity.
Qed.

End ValidatorShape.

(** ** What [intToIp] prints and what [ipToInt] reads *)

Section Printing.

Lemma toString_octet_canonical o :
  is_octet o -> leading_zero (JS.toString o) = false.
Proof.
  intros H. apply negb_true_iff.
  revert o H. apply octet_cases. vm_compute. reflexivity.
Qed.

(** Whatever the integer, negative or beyond 32 bits, [intToIp] prints a
    valid address without leading zeros; it is the address of the
    integer modulo 2^32, which [ipToInt] reads back. *)
Theorem intToIp_any_integer x :
  isValidIP (intToIp x) = true /\
  canonicalIP (intToIp x) = true /\
  intToIp (x mod 2 ^ 32) = intToIp x /\
  ipToInt (intToIp x) = x mod 2 ^ 32.
Proof.
  split; [apply intToIp_valid |]. split; [| split].
  - rewrite intToIp_octets. unfold canonicalIP.
    rewrite split_dotted by (apply toString_octet_no_dot, octet_at_range).
    cbn [forallb].
    rewrite !toString_octet_canonical by apply octet_at_range.
    reflexivity.
  - apply (intToIp_ToUint32 x).
  - apply ipToInt_intToIp.
Qed.

(** Two integers print the same address exactly when they agree modulo
    2^32: distinct 32-bit values never share a text. *)
Theorem intToIp_eq_iff x y :
  intToIp x = intToIp y <-> x mod 2 ^ 32 = y mod 2 ^ 32.
Proof.
  split; intros H.
  - apply (f_equal ipToInt) in H. now rewrite !ipToInt_intToIp in H.
  - rewrite <- (intToIp_ToUint32 x), <- (intToIp_ToUint32 y).
    unfold JS.ToUint32. now rewrite H.
Qed.

(** [ipToInt] reads any text leniently: whatever the text, the result
    is an unsigned 32-bit integer; what follows the fourth part is
    ignored, and each missing part counts as 0, be it the fourth, the
    third and fourth, or all but the first. *)
Theorem ipToInt_lenient (a b c d rest : string) :
  no_char "." a = true -> no_char "." b = true ->
  no_char "." c = true -> no_char "." d = true ->
  (forall ip, 0 <= ipToInt ip < 2 ^ 32) /\
  ipToInt (dotted a b c d ++ "." ++ rest) = ipToInt (dotted a b c d) /\
  ipToInt (a ++ "." ++ b ++ "." ++ c) = ipToInt (dotted a b c "0") /\
  ipToInt (a ++ "." ++ b) = ipToInt (dotted a b "0" "0") /\
  ipToInt a = ipToInt (dotted a "0" "0" "0").
Proof.
  intros Ha Hb Hc Hd.
  split; [intros ip; apply ipToInt_range |].
  assert (S4 : JS.split "." (dotted a b c d ++ "." ++ rest)
               = a :: b :: c :: d :: JS.split "." rest).
  { unfold dotted. simpl.
    rewrite !string_app_assoc. simpl.
    rewrite (split_app _ a) by exact Ha. rewrite !string_app_assoc. simpl.
    rewrite (split_app _ b) by exact Hb. rewrite !string_app_assoc. simpl.
    rewrite (split_app _ c) by exact Hc.
    now rewrite (split_app _ d) by exact Hd. }
  assert (S3 : JS.split "." (a ++ "." ++ b ++ "." ++ c) = [a; b; c]).
  { simpl. rewrite (split_app _ a) by exact Ha.
    rewrite (split_app _ b) by exact Hb.
    now rewrite (split_no_sep _ c) by exact Hc. }
  assert (S2 : JS.split "." (a ++ "." ++ b) = [a; b]).
  { simpl. rewrite (split_app _ a) by exact Ha.
    now rewrite (split_no_sep _ b) by exact Hb. }
  unfold ipToInt.
  rewrite S4, S3, S2, (split_no_sep _ a Ha), !split_dotted
    by (assumption || reflexivity).
  split; [reflexivity |]. split; [reflexivity |].
  split; reflexivity.
Qed.

Lemma ipToInt_lenient_witness :
  0 <= ipToInt "not an address" < 2 ^ 32 /\
  ipToInt "1.2.3.4.5" = ipToInt "1.2.3.4" /\
  ipToInt "1.1.1" = ipToInt "1.1.1.0" /\
  ipToInt "1.2" = ipToInt "1.2.0.0" /\
  ipToInt "7" = ipToInt "7.0.0.0".
Proof.
  destruct (ipToInt_lenient "1" "2" "3" "4" "5") as (R & E & _);
    try reflexivity.
  destruct (ipToInt_lenient "1" "1" "1" "0" "") as (_ & _ & T & _);
    try reflexivity.
  destruct (ipToInt_lenient "1" "2" "0" "0" "") as (_ & _ & _ & F & _);
    try reflexivity.
  destruct (ipToInt_lenient "7" "0" "0" "0" "") as (_ & _ & _ & _ & G);
    try reflexivity.
  split; [apply R |]. split; [exact E |]. split; [exact T |].
  split; [exact F | exact G].
Defined.

End Printing.

(** ** Masks *)

Section MaskValues.

(** For the prefixes 0 to 31 the mask printed is a valid address whose
    number is [cidr] one bits followed by zero bits, the wildcard mask
    is its complement, and a longer prefix gives a larger mask. *)
Theorem cidrToSubnetMask_value cidr :
  0 <= cidr <= 31 ->
  isValidIP (cidrToSubnetMask cidr) = true /\
  ipToInt (cidrToSubnetMask cidr) = 2 ^ 32 - 2 ^ (32 - cidr) /\
  ipToInt (calculateWildcardMask (cidrToSubnetMask cidr))
  = 2 ^ (32 - cidr) - 1 /\
  (cidr < 31 ->
   ipToInt (cidrToSubnetMask cidr) < ipToInt (cidrToSubnetMask (cidr + 1))).
Proof.
  intros H.
  assert (V : forall c, 0 <= c <= 31 ->
                        ipToInt (cidrToSubnetMask c) = 2 ^ 32 - 2 ^ (32 - c)).
  { intros c Hc. rewrite ipToInt_cidrToSubnetMask. now apply mask_of_value. }
  split; [apply intToIp_valid |]. split; [now apply V |]. split.
  - unfold calculateWildcardMask.
    rewrite ipToInt_intToIp, ushr_0, ToUint32_idem, bnot_unsigned, V by lia.
    assert (0 < 2 ^ (32 - cidr) <= 2 ^ 32).
    { split; [apply Z.pow_pos_nonneg; lia |].
      apply Z.pow_le_mono_r; lia. }
    rewrite (ToUint32_small (2 ^ 32 - 2 ^ (32 - cidr))) by lia.
    lia.
  - intros L. rewrite !V by lia.
    assert (2 ^ (32 - (cidr + 1)) < 2 ^ (32 - cidr))
      by (apply Z.pow_lt_mono_r; lia).
    lia.
Qed.

Lemma cidrToSubnetMask_value_witness :
  ipToInt (cidrToSubnetMask 24) = 2 ^ 32 - 2 ^ 8.
Proof.
  apply (cidrToSubnetMask_value 24). lia.
Defined.

(** The prefix only counts modulo 32. *)
Theorem cidrToSubnetMask_periodic cidr :
  cidrToSubnetMask (cidr + 32) = cidrToSubnetMask cidr.
Proof.
  rewrite !cidrToSubnetMask_mask_of.
  rewrite (mask_of_mod (cidr + 32)), (mask_of_mod cidr).
  do 2 f_equal.
  rewrite <- (Z.mul_1_l 32) at 1. apply Z.mod_add. lia.
Qed.

(** *** Bits of signed 32-bit integers *)

Lemma ToInt32_testbit x n :
  0 <= n < 32 -> Z.testbit (JS.ToInt32 x) n = Z.testbit x n.
Proof.
  intros H.
  rewrite <- (Z.mod_pow2_bits_low (JS.ToInt32 x) 32 n) by lia.
  fold (JS.ToUint32 (JS.ToInt32 x)). rewrite ToUint32_ToInt32.
  unfold JS.ToUint32. apply Z.mod_pow2_bits_low. lia.
Qed.

(** Above bit 31 a signed 32-bit integer repeats its sign bit. *)
Lemma ToInt32_high_bits x n :
  31 <= n -> Z.testbit (JS.ToInt32 x) n = Z.testbit x 31.
Proof.
  intros H. rewrite <- (ToInt32_testbit x 31) by lia.
  pose proof (ToInt32_range x) as R.
  set (a := JS.ToInt32 x) in *.
  assert (B : forall m, 31 <= m -> Z.testbit a m = (a <? 0)).
  { intros m Hm. destruct (Z.ltb_spec a 0) as [Neg | Pos].
    - apply Z.bits_above_log2_neg; [lia |].
      destruct (Z.eq_dec (Z.pred (- a)) 0) as [E | NE].
      + rewrite E. simpl. lia.
      + apply Z.lt_le_trans with 31; [| lia].
        apply Z.log2_lt_pow2; lia.
    - destruct (Z.eq_dec a 0) as [E | NE].
      + rewrite E. apply Z.testbit_0_l.
      + apply Z.bits_above_log2; [lia |].
        apply Z.lt_le_trans with 31; [| lia].
        apply Z.log2_lt_pow2; lia. }
  now rewrite (B n H), (B 31) by lia.
Qed.

Lemma band_testbit x y n :
  0 <= n ->
  Z.testbit (JS.band x y) n
  = Z.testbit x (Z.min n 31) && Z.testbit y (Z.min n 31).
Proof.
  intros H. unfold JS.band. rewrite Z.land_spec.
  destruct (Z.le_gt_cases 31 n) as [Hi | Lo].
  - rewrite !ToInt32_high_bits by lia. now rewrite Z.min_r by lia.
  - rewrite !ToInt32_testbit by lia. now rewrite Z.min_l by lia.
Qed.

(** [mask & (1 << k)] is not zero exactly when bit [k] of [mask] is set. *)
Lemma band_single_bit mask k :
  0 <= k <= 31 ->
  negb (JS.band mask (JS.shl 1 k) =? 0) = Z.testbit mask k.
Proof.
  intros Hk.
  assert (S : forall n, 0 <= n <= 31 ->
                        Z.testbit (JS.shl 1 k) n = (n =? k)).
  { intros n Hn. unfold JS.shl. rewrite ToInt32_testbit by lia.
    replace (JS.ToUint32 k mod 32) with k.
    - change (JS.ToInt32 1) with 1.
      rewrite Z.shiftl_1_l, Z.pow2_bits_eqb by lia. apply Z.eqb_sym.
    - unfold JS.ToUint32. rewrite (Z.mod_small k (2 ^ 32)) by pow2_lia.
      now rewrite Z.mod_small by lia. }
  destruct (Z.testbit mask k) eqn:T.
  - apply negb_true_iff, Z.eqb_neq. intros E.
    apply (f_equal (fun v => Z.testbit v k)) in E.
    rewrite band_testbit, Z.min_l, T, S, Z.eqb_refl, Z.bits_0 in E by lia.
    discriminate.
  - apply negb_false_iff, Z.eqb_eq. apply Z.bits_inj'. intros n Hn.
    rewrite band_testbit, Z.bits_0 by lia.
    destruct (Z.eq_dec (Z.min n 31) k) as [-> | NE].
    + now rewrite T.
    + rewrite S by lia. apply Z.eqb_neq in NE. rewrite NE.
      apply andb_false_r.
Qed.

Lemma count_bits_fold (f : Z -> bool) l acc :
  fold_left (fun count i => if f i then count + 1 else count) l acc
  = acc + Z.of_nat (List.length (filter f l)).
Proof.
  revert acc. induction l as [| i l IH]; intros acc; simpl; [lia |].
  rewrite IH. destruct (f i); simpl; lia.
Qed.

Lemma filter_map_length {A B : Type} (f : B -> bool) (g : A -> B) l :
  List.length (filter f (map g l))
  = List.length (filter (fun a => f (g a)) l).
Proof.
  induction l as [| a l IH]; simpl; [reflexivity |].
  destruct (f (g a)); simpl; congruence.
Qed.

Lemma filter_ext_in_length {A : Type} (f g : A -> bool) l :
  (forall a, In a l -> f a = g a) ->
  List.length (filter f l) = List.length (filter g l).
Proof.
  intros H. induction l as [| a l IH]; simpl; [reflexivity |].
  rewrite (H a) by (left; reflexivity).
  destruct (g a); simpl; rewrite IH; auto;
    intros b Hb; apply H; right; exact Hb.
Qed.

(** [subnetMaskToCidr] counts the bits set in the number of the mask,
    wherever they are: a mask whose ones are not contiguous is not
    refused, and the result is between 0 and 32. *)
Theorem subnetMaskToCidr_counts_bits subnetMask :
  subnetMaskToCidr subnetMask = popcount32 (ipToInt subnetMask) /\
  0 <= subnetMaskToCidr subnetMask <= 32.
Proof.
  assert (E : subnetMaskToCidr subnetMask = popcount32 (ipToInt subnetMask)).
  { unfold subnetMaskToCidr, popcount32. cbv zeta.
    rewrite (count_bits_fold
               (fun i => negb (JS.band (ipToInt subnetMask)
                                        (JS.shl 1 (31 - i)) =? 0))).
    rewrite Z.add_0_l. f_equal.
    rewrite (filter_ext_in_length _
               (fun i => Z.testbit (ipToInt subnetMask) (31 - i))).
    - rewrite <- (filter_map_length (Z.testbit (ipToInt subnetMask))
                    (fun i => 31 - i)).
      change (map (fun i => 31 - i) (map Z.of_nat (seq 0 32)))
        with (rev (map Z.of_nat (seq 0 32))).
      now rewrite filter_rev, length_rev.
    - intros i Hi. apply in_map_iff in Hi as (k & <- & Hk).
      apply in_seq in Hk. apply band_single_bit. lia. }
  split; [exact E |].
  rewrite E. unfold popcount32.
  pose proof (filter_length_le (Z.testbit (ipToInt subnetMask))
                (map Z.of_nat (seq 0 32))) as L.
  rewrite length_map, length_seq in L. lia.
Qed.

End MaskValues.

(** ** Binary renderings *)

Section Binary.

Lemma string_length_app (a b : string) :
  String.length (a ++ b) = (String.length a + String.length b)%nat.
Proof. induction a; simpl; congruence. Qed.

Lemma all_chars_app f (a b : string) :
  all_chars f (a ++ b) = all_chars f a && all_chars f b.
Proof.
  induction a as [| c a IH]; simpl; [reflexivity |].
  now rewrite IH, andb_assoc.
Qed.

Lemma bits_value_from_spec acc s :
  bits_value_from acc s
  = acc * 2 ^ Z.of_nat (String.length s) + bits_value s.
Proof.
  unfold bits_value. revert acc.
  induction s as [| c s IH]; intros acc.
  - simpl. lia.
  - cbn [bits_value_from String.length].
    rewrite IH, (IH (2 * 0 + _)).
    rewrite Nat2Z.inj_succ, Z.pow_succ_r by lia. ring.
Qed.

Lemma bits_value_app a b :
  bits_value (a ++ b)
  = bits_value a * 2 ^ Z.of_nat (String.length b) + bits_value b.
Proof.
  unfold bits_value at 1. revert b.
  assert (G : forall acc b,
             bits_value_from acc (a ++ b)
             = bits_value_from (bits_value_from acc a) b).
  { induction a as [| c a IH]; intros acc b; [reflexivity |].
    cbn [String.append bits_value_from]. apply IH. }
  intros b. rewrite G, bits_value_from_spec. reflexivity.
Qed.

(** An octet is rendered with exactly eight binary digits that write it. *)
Lemma toBinary_octet o :
  is_octet o ->
  String.length (toBinary (Some o) 8) = 8%nat /\
  all_chars is_bit (toBinary (Some o) 8) = true /\
  bits_value (toBinary (Some o) 8) = o.
Proof.
  intros H.
  assert (C : ((String.length (toBinary (Some o) 8) =? 8)%nat
               && all_chars is_bit (toBinary (Some o) 8)
               && (bits_value (toBinary (Some o) 8) =? o)) = true).
  { revert o H. apply octet_cases. vm_compute. reflexivity. }
  apply andb_prop in C as [C V]. apply andb_prop in C as [L B].
  apply Nat.eqb_eq in L. apply Z.eqb_eq in V. auto.
Qed.

(** The parts of a valid address and the octets they parse to. *)
Lemma valid_address_octets ip :
  isValidIP ip = true ->
  exists a b c d va vb vc vd,
    JS.split "." ip = [a; b; c; d] /\
    JS.parseInt a = Some va /\ JS.parseInt b = Some vb /\
    JS.parseInt c = Some vc /\ JS.parseInt d = Some vd /\
    is_octet va /\ is_octet vb /\ is_octet vc /\ is_octet vd /\
    ipToInt ip = pack va vb vc vd.
Proof.
  intros H.
  apply isValidIP_spec in H as (a & b & c & d & Ha & Hb & Hc & Hd & ->).
  apply octet_lang_facts in Ha as (Da & va & Pa & Oa & _).
  apply octet_lang_facts in Hb as (Db & vb & Pb & Ob & _).
  apply octet_lang_facts in Hc as (Dc & vc & Pc & Oc & _).
  apply octet_lang_facts in Hd as (Dd & vd & Pd & Od & _).
  exists a, b, c, d, va, vb, vc, vd.
  assert (S : JS.split "." (dotted a b c d) = [a; b; c; d])
    by now apply split_dotted.
  split; [exact S |].
  do 8 (split; [assumption |]).
  eapply ipToInt_parts; eassumption.
Qed.

Lemma ipToBinaryRaw_parts ip a b c d va vb vc vd :
  JS.split "." ip = [a; b; c; d] ->
  JS.parseInt a = Some va -> JS.parseInt b = Some vb ->
  JS.parseInt c = Some vc -> JS.parseInt d = Some vd ->
  ipToBinaryRaw ip
  = (toBinary (Some va) 8 ++ toBinary (Some vb) 8
     ++ toBinary (Some vc) 8 ++ toBinary (Some vd) 8)%string /\
  ipToBinary ip
  = (toBinary (Some va) 8 ++ " " ++ toBinary (Some vb) 8 ++ " "
     ++ toBinary (Some vc) 8 ++ " " ++ toBinary (Some vd) 8)%string.
Proof.
  intros S Pa Pb Pc Pd. unfold ipToBinaryRaw, ipToBinary.
  rewrite S. cbn [map]. rewrite Pa, Pb, Pc, Pd.
  split; reflexivity.
Qed.

(** For a valid address [ipToBinaryRaw] gives 32 binary digits that write
    the number of the address, and [ipToBinary] gives the same digits in
    four groups of eight with single spaces in between (35 characters). *)
Theorem ipToBinary_valid ip :
  isValidIP ip = true ->
  String.length (ipToBinaryRaw ip) = 32%nat /\
  all_chars is_bit (ipToBinaryRaw ip) = true /\
  bits_value (ipToBinaryRaw ip) = ipToInt ip /\
  String.length (ipToBinary ip) = 35%nat /\
  exists g1 g2 g3 g4,
    ipToBinary ip = (g1 ++ " " ++ g2 ++ " " ++ g3 ++ " " ++ g4)%string /\
    ipToBinaryRaw ip = (g1 ++ g2 ++ g3 ++ g4)%string /\
    String.length g1 = 8%nat /\ String.length g2 = 8%nat /\
    String.length g3 = 8%nat /\ String.length g4 = 8%nat.
Proof.
  intros H.
  destruct (valid_address_octets ip H)
    as (a & b & c & d & va & vb & vc & vd & S & Pa & Pb & Pc & Pd
        & Oa & Ob & Oc & Od & I).
  destruct (ipToBinaryRaw_parts ip a b c d va vb vc vd S Pa Pb Pc Pd)
    as [R B].
  destruct (toBinary_octet va Oa) as (La & Ba & Va).
  destruct (toBinary_octet vb Ob) as (Lb & Bb & Vb).
  destruct (toBinary_octet vc Oc) as (Lc & Bc & Vc).
  destruct (toBinary_octet vd Od) as (Ld & Bd & Vd).
  rewrite R, B, I.
  set (ga := toBinary (Some va) 8) in *.
  set (gb := toBinary (Some vb) 8) in *.
  set (gc := toBinary (Some vc) 8) in *.
  set (gd := toBinary (Some vd) 8) in *.
  split; [| split; [| split; [| split]]].
  - rewrite !string_length_app. lia.
  - rewrite !all_chars_app, Ba, Bb, Bc, Bd. reflexivity.
  - rewrite !bits_value_app, !string_length_app, Lb, Lc, Ld, Va, Vb, Vc, Vd.
    unfold pack. simpl Z.of_nat.
    change (2 ^ 24) with 16777216. change (2 ^ 16) with 65536.
    change (2 ^ 8) with 256. ring.
  - rewrite !string_length_app, La, Lb, Lc, Ld. reflexivity.
  - exists ga, gb, gc, gd. repeat split; assumption.
Qed.

Lemma ipToBinary_valid_witness :
  String.length (ipToBinaryRaw "192.168.1.10") = 32%nat /\
  bits_value (ipToBinaryRaw "192.168.1.10") = ipToInt "192.168.1.10".
Proof.
  destruct (ipToBinary_valid "192.168.1.10") as (L & _ & V & _);
    [reflexivity |].
  split; [exact L | exact V].
Defined.

End Binary.

Section BinaryAndOperation.

Lemma octet_at_band x y k :
  0 <= k ->
  octet_at (JS.band x y) k = Z.land (octet_at x k) (octet_at y k).
Proof.
  intros Hk. unfold octet_at. rewrite band_unsigned.
  change 256 with (2 ^ 8).
  rewrite <- !Z.land_ones, <- !Z.shiftr_div_pow2, Z.shiftr_land by lia.
  apply Z.bits_inj'. intros n Hn. rewrite !Z.land_spec.
  destruct (Z.testbit (Z.shiftr (JS.ToUint32 x) k) n),
    (Z.testbit (Z.shiftr (JS.ToUint32 y) k) n),
    (Z.testbit (Z.ones 8) n); reflexivity.
Qed.

Lemma and_bits_app a1 a2 b1 b2 :
  String.length a1 = String.length b1 ->
  and_bits (a1 ++ a2) (b1 ++ b2)
  = (and_bits a1 b1 ++ and_bits a2 b2)%string.
Proof.
  revert b1. induction a1 as [| x a1 IH]; intros [| y b1] L;
    simpl in L; try discriminate.
  - reflexivity.
  - cbn [String.append and_bits]. f_equal. apply IH. congruence.
Qed.

(** On octets, the rendering of the AND is the AND of the renderings. *)
Lemma toBinary_land a b :
  is_octet a -> is_octet b ->
  toBinary (Some (Z.land a b)) 8
  = and_bits (toBinary (Some a) 8) (toBinary (Some b) 8).
Proof.
  intros Ha Hb. apply String.eqb_eq. revert b Hb.
  apply (octet_cases
           (fun b => String.eqb (toBinary (Some (Z.land a b)) 8)
                       (and_bits (toBinary (Some a) 8)
                                 (toBinary (Some b) 8)))).
  revert a Ha.
  apply (octet_cases
           (fun a =>
              forallb
                (fun b => String.eqb (toBinary (Some (Z.land a b)) 8)
                            (and_bits (toBinary (Some a) 8)
                                      (toBinary (Some b) 8)))
                (map Z.of_nat (seq 0 256)))).
  vm_compute. reflexivity.
Qed.

(** For a valid address and a valid mask, the result row of
    [generateBinaryAndOperation] is the digit-by-digit AND of the two rows
    above it, it writes the AND of the two numbers in 32 digits, and the
    count of network bits is the number of ones of the mask. *)
Theorem generateBinaryAndOperation_rows ip subnetMask :
  isValidIP ip = true -> isValidIP subnetMask = true ->
  let r := generateBinaryAndOperation ip subnetMask in
  BinaryAnd.resultBits r
  = and_bits (BinaryAnd.ipBits r) (BinaryAnd.maskBits r) /\
  String.length (BinaryAnd.resultBits r) = 32%nat /\
  bits_value (BinaryAnd.resultBits r)
  = Z.land (ipToInt ip) (ipToInt subnetMask) /\
  BinaryAnd.networkBits r = popcount32 (ipToInt subnetMask).
Proof.
  intros Hi Hm r.
  destruct (valid_address_octets ip Hi)
    as (a & b & c & d & va & vb & vc & vd & S & Pa & Pb & Pc & Pd
        & Oa & Ob & Oc & Od & I).
  destruct (valid_address_octets subnetMask Hm)
    as (a' & b' & c' & d' & ma & mb & mc & md & S' & Pa' & Pb' & Pc' & Pd'
        & Oa' & Ob' & Oc' & Od' & I').
  destruct (ipToBinaryRaw_parts ip _ _ _ _ _ _ _ _ S Pa Pb Pc Pd) as [R _].
  destruct (ipToBinaryRaw_parts subnetMask _ _ _ _ _ _ _ _ S' Pa' Pb' Pc' Pd')
    as [R' _].
  set (resultInt := JS.band (ipToInt ip) (ipToInt subnetMask)).
  assert (V : isValidIP (intToIp resultInt) = true) by apply intToIp_valid.
  assert (RR : ipToBinaryRaw (intToIp resultInt)
               = (toBinary (Some (Z.land va ma)) 8
                  ++ toBinary (Some (Z.land vb mb)) 8
                  ++ toBinary (Some (Z.land vc mc)) 8
                  ++ toBinary (Some (Z.land vd md)) 8)%string).
  { destruct (octet_at_pack va vb vc vd Oa Ob Oc Od) as (E1 & E2 & E3 & E4).
    destruct (octet_at_pack ma mb mc md Oa' Ob' Oc' Od')
      as (F1 & F2 & F3 & F4).
    rewrite <- I in E1, E2, E3, E4. rewrite <- I' in F1, F2, F3, F4.
    assert (G1 : octet_at resultInt 24 = Z.land va ma)
      by (unfold resultInt; rewrite octet_at_band; [congruence | lia]).
    assert (G2 : octet_at resultInt 16 = Z.land vb mb)
      by (unfold resultInt; rewrite octet_at_band; [congruence | lia]).
    assert (G3 : octet_at resultInt 8 = Z.land vc mc)
      by (unfold resultInt; rewrite octet_at_band; [congruence | lia]).
    assert (G4 : octet_at resultInt 0 = Z.land vd md)
      by (unfold resultInt; rewrite octet_at_band; [congruence | lia]).
    rewrite <- G1, <- G2, <- G3, <- G4.
    apply (ipToBinaryRaw_parts (intToIp resultInt)
             (JS.toString (octet_at resultInt 24))
             (JS.toString (octet_at resultInt 16))
             (JS.toString (octet_at resultInt 8))
             (JS.toString (octet_at resultInt 0))).
    - rewrite intToIp_octets.
      apply split_dotted; apply toString_octet_no_dot, octet_at_range.
    - apply parseInt_toString_octet, octet_at_range.
    - apply parseInt_toString_octet, octet_at_range.
    - apply parseInt_toString_octet, octet_at_range.
    - apply parseInt_toString_octet, octet_at_range. }
  destruct (toBinary_octet va Oa) as (La & _).
  destruct (toBinary_octet vb Ob) as (Lb & _).
  destruct (toBinary_octet vc Oc) as (Lc & _).
  destruct (toBinary_octet ma Oa') as (La' & _).
  destruct (toBinary_octet mb Ob') as (Lb' & _).
  destruct (toBinary_octet mc Oc') as (Lc' & _).
  destruct (ipToBinary_valid _ V) as (L32 & _ & BV & _).
  unfold r, generateBinaryAndOperation.
  cbn [BinaryAnd.resultBits BinaryAnd.ipBits BinaryAnd.maskBits
       BinaryAnd.networkBits].
  fold resultInt.
  split; [| split; [exact L32 | split]].
  - rewrite RR, R, R'.
    rewrite !and_bits_app by congruence.
    now rewrite !toBinary_land by assumption.
  - rewrite BV, ipToInt_intToIp. unfold resultInt.
    rewrite band_unsigned.
    now rewrite !ToUint32_small by apply ipToInt_range.
  - apply subnetMaskToCidr_counts_bits.
Qed.

Lemma generateBinaryAndOperation_rows_witness :
  let r := generateBinaryAndOperation "192.168.1.10" "255.255.255.0" in
  BinaryAnd.resultBits r
  = and_bits (BinaryAnd.ipBits r) (BinaryAnd.maskBits r) /\
  BinaryAnd.networkBits r = popcount32 (ipToInt "255.255.255.0").
Proof.
  destruct (generateBinaryAndOperation_rows "192.168.1.10" "255.255.255.0")
    as (A & _ & _ & N); [reflexivity | reflexivity |].
  split; [exact A | exact N].
Defined.

End BinaryAndOperation.

(** ** Network, broadcast, wildcard and hosts *)

Section Boundaries2.

Lemma bnot_bits a : JS.ToUint32 (JS.bnot a) = JS.ToUint32 (Z.lnot (JS.ToUint32 a)).
Proof. now rewrite bnot_unsigned, ToUint32_lnot, ToUint32_idem. Qed.

Lemma intToIp_congr x y :
  JS.ToUint32 x = JS.ToUint32 y -> intToIp x = intToIp y.
Proof. intros H. now apply intToIp_eq_iff. Qed.

(** Equations between 32-bit results, bit by bit. *)
Ltac bits32 :=
  repeat first [ rewrite ushr_0 | rewrite ToUint32_idem
               | rewrite band_unsigned | rewrite bor_unsigned
               | rewrite bnot_bits | rewrite ipToInt_intToIp ];
  rewrite !ToUint32_as_land;
  apply Z.bits_inj'; intros ?n ?Hn;
  repeat first [ rewrite Z.land_spec | rewrite Z.lor_spec
               | rewrite Z.lnot_spec by assumption ];
  repeat match goal with
         | |- context [Z.testbit ?v ?n] =>
             is_var n; destruct (Z.testbit v n)
         end;
  reflexivity.

(** Whatever the two texts, the network and broadcast addresses are fixed
    points: the network of the network or of the broadcast address is the
    network, the broadcast of either is the broadcast address. *)
Theorem network_broadcast_idempotent ip subnetMask :
  let network := calculateNetworkAddress ip subnetMask in
  let broadcast := calculateBroadcastAddress ip subnetMask in
  calculateNetworkAddress network subnetMask = network /\
  calculateNetworkAddress broadcast subnetMask = network /\
  calculateBroadcastAddress network subnetMask = broadcast /\
  calculateBroadcastAddress broadcast subnetMask = broadcast.
Proof.
  cbv zeta. unfold calculateNetworkAddress, calculateBroadcastAddress.
  split; [| split; [| split]]; apply intToIp_congr; bits32.
Qed.

(** The wildcard mask of any text is the complement of its number, and
    taking it twice gives the text of the number back. *)
Theorem calculateWildcardMask_complement subnetMask :
  ipToInt (calculateWildcardMask subnetMask)
  = 2 ^ 32 - 1 - ipToInt subnetMask /\
  calculateWildcardMask (calculateWildcardMask subnetMask)
  = intToIp (ipToInt subnetMask).
Proof.
  assert (E : forall m, ipToInt (calculateWildcardMask m)
                        = 2 ^ 32 - 1 - ipToInt m).
  { intros m. unfold calculateWildcardMask.
    rewrite ipToInt_intToIp, ushr_0, ToUint32_idem, bnot_unsigned.
    now rewrite ToUint32_small by apply ipToInt_range. }
  split; [apply E |].
  unfold calculateWildcardMask at 1. apply intToIp_congr.
  rewrite E, ushr_0, ToUint32_idem, bnot_unsigned.
  pose proof (ipToInt_range subnetMask).
  rewrite !ToUint32_small; lia.
Qed.

(** The first host is the next address and the last host the previous
    one, modulo 2^32 (after 255.255.255.255 comes 0.0.0.0); each undoes
    the other. *)
Theorem first_last_host_inverse address :
  ipToInt (calculateFirstHost address) = (ipToInt address + 1) mod 2 ^ 32 /\
  ipToInt (calculateLastHost address) = (ipToInt address - 1) mod 2 ^ 32 /\
  calculateLastHost (calculateFirstHost address)
  = intToIp (ipToInt address) /\
  calculateFirstHost (calculateLastHost address)
  = intToIp (ipToInt address).
Proof.
  assert (F : forall a, ipToInt (calculateFirstHost a)
                        = (ipToInt a + 1) mod 2 ^ 32)
    by (intros a; unfold calculateFirstHost; rewrite ipToInt_intToIp;
        unfold JS.ToUint32; reflexivity).
  assert (L : forall a, ipToInt (calculateLastHost a)
                        = (ipToInt a - 1) mod 2 ^ 32)
    by (intros a; unfold calculateLastHost; rewrite ipToInt_intToIp;
        unfold JS.ToUint32; reflexivity).
  split; [apply F |]. split; [apply L |].
  pose proof (ipToInt_range address) as R.
  split.
  - unfold calculateLastHost at 1. rewrite F. apply intToIp_congr.
    unfold JS.ToUint32. rewrite Zminus_mod_idemp_l. f_equal. lia.
  - unfold calculateFirstHost at 1. rewrite L. apply intToIp_congr.
    unfold JS.ToUint32. rewrite Zplus_mod_idemp_l. f_equal. lia.
Qed.

(** For the prefixes 0 to 31 the address lies between the network and
    the broadcast address, which bound an aligned block of
    [2 ^ (32 - cidr)] addresses, the total host count; the wildcard mask
    is the distance between the two. *)
Theorem calculateIPInfo_block ip cidr :
  isValidIP ip = true ->
  0 <= cidr <= 31 ->
  let r := calculateIPInfo ip cidr in
  let N := ipToInt (IPResult.networkAddress r) in
  let B := ipToInt (IPResult.broadcastAddress r) in
  N <= ipToInt ip <= B /\
  N mod 2 ^ (32 - cidr) = 0 /\
  B = N + 2 ^ (32 - cidr) - 1 /\
  (IPResult.totalHosts r == inject_Z (B - N + 1))%Q /\
  ipToInt (IPResult.wildcardMask r) = B - N /\
  IPResult.hostBits r + IPResult.cidr r = 32.
Proof.
  intros _ Hc. cbv zeta.
  cbn [calculateIPInfo IPResult.networkAddress IPResult.broadcastAddress
       IPResult.totalHosts IPResult.wildcardMask IPResult.hostBits
       IPResult.cidr].
  rewrite ipToInt_networkAddress, ipToInt_broadcastAddress by exact Hc.
  destruct (cidrToSubnetMask_value cidr Hc) as (_ & _ & W & _).
  rewrite W, pow2_nonneg by lia.
  assert (P : 0 < 2 ^ (32 - cidr)) by (apply Z.pow_pos_nonneg; lia).
  pose proof (Z.mod_pos_bound (ipToInt ip) (2 ^ (32 - cidr)) P) as M.
  split; [lia |]. split; [| split; [lia | split; [| split; lia]]].
  - rewrite Zminus_mod_idemp_r, Z.sub_diag. apply Z.mod_0_l. lia.
  - match goal with
    | |- (_ == inject_Z ?e)%Q => replace e with (2 ^ (32 - cidr)) by lia
    end.
    reflexivity.
Qed.

(** For the prefixes 0 to 30 the host range starts one above the network
    address and ends one below the broadcast address, it is not empty,
    and the usable host count is the number of addresses in it, two less
    than the total. *)
Theorem calculateIPInfo_host_range ip cidr :
  isValidIP ip = true ->
  0 <= cidr <= 30 ->
  let r := calculateIPInfo ip cidr in
  let first := ipToInt (IPResult.firstValidHost r) in
  let last := ipToInt (IPResult.lastValidHost r) in
  first = ipToInt (IPResult.networkAddress r) + 1 /\
  last = ipToInt (IPResult.broadcastAddress r) - 1 /\
  first <= last /\
  (IPResult.usableHosts r == inject_Z (last - first + 1))%Q /\
  (IPResult.usableHosts r == IPResult.totalHosts r - 2)%Q.
Proof.
  intros _ Hc. cbv zeta.
  cbn [calculateIPInfo IPResult.networkAddress IPResult.broadcastAddress
       IPResult.totalHosts IPResult.usableHosts IPResult.firstValidHost
       IPResult.lastValidHost].
  unfold calculateFirstHost, calculateLastHost.
  rewrite !ipToInt_intToIp.
  rewrite ipToInt_networkAddress, ipToInt_broadcastAddress by lia.
  pose proof (ipToInt_range ip) as R.
  assert (P : 4 <= 2 ^ (32 - cidr)).
  { change 4 with (2 ^ 2). apply Z.pow_le_mono_r; lia. }
  pose proof (Z.mod_pos_bound (ipToInt ip) (2 ^ (32 - cidr)) ltac:(lia)) as M.
  pose proof (align_down_range (ipToInt ip) (32 - cidr) R ltac:(lia)) as A.
  change 2%Q with (inject_Z 2). rewrite Qgtb_pow2.
  unfold ceil_pow2.
  destruct (Z.ltb_spec (32 - cidr) 0); [lia |].
  destruct (Z.ltb_spec 2 (2 ^ (32 - cidr))); [| lia].
  rewrite !ToUint32_small by lia.
  split; [reflexivity |]. split; [reflexivity |]. split; [lia |].
  split; [| reflexivity].
  rewrite pow2_nonneg by lia.
  match goal with
  | |- (_ == inject_Z ?e)%Q =>
      replace e with (2 ^ (32 - cidr) + - (2)) by lia
  end.
  rewrite inject_Z_plus, inject_Z_opp. reflexivity.
Qed.

Lemma calculateIPInfo_block_witness :
  ipToInt (IPResult.networkAddress (calculateIPInfo "192.168.1.10" 24))
  <= ipToInt "192.168.1.10"
  <= ipToInt (IPResult.broadcastAddress (calculateIPInfo "192.168.1.10" 24)).
Proof.
  apply (calculateIPInfo_block "192.168.1.10" 24); [reflexivity | lia].
Defined.

Lemma calculateIPInfo_host_range_witness :
  ipToInt (IPResult.firstValidHost (calculateIPInfo "192.168.1.10" 24))
  = ipToInt (IPResult.networkAddress (calculateIPInfo "192.168.1.10" 24)) + 1.
Proof.
  apply (calculateIPInfo_host_range "192.168.1.10" 24); [reflexivity | lia].
Defined.

End Boundaries2.

(** ** More on the subnets *)

Lemma newCidr_bounds cidr subnetCount :
  0 <= cidr <= 30 ->
  cidr <= newCidr_of cidr subnetCount <= 30 /\
  ceil_pow2 (newCidr_of cidr subnetCount - cidr)
  = 2 ^ (newCidr_of cidr subnetCount - cidr) /\
  2 ^ (newCidr_of cidr subnetCount - cidr)
  * 2 ^ (32 - newCidr_of cidr subnetCount) = 2 ^ (32 - cidr).
Proof.
  intros Hcidr.
  pose proof (Z.log2_up_nonneg subnetCount) as L.
  assert (B : cidr <= newCidr_of cidr subnetCount <= 30)
    by (unfold newCidr_of; lia).
  split; [exact B |]. split.
  - unfold ceil_pow2.
    destruct (Z.ltb_spec (newCidr_of cidr subnetCount - cidr) 0); [lia |].
    reflexivity.
  - rewrite <- Z.pow_add_r by lia. f_equal. lia.
Qed.

(** Where the subnet of index [i] lies, as numbers. *)
Lemma subnet_position (ip : string) cidr subnetCount i :
  0 <= cidr <= 30 ->
  0 <= i < Z.min (2 ^ (newCidr_of cidr subnetCount - cidr)) subnetCount ->
  let size := 2 ^ (32 - newCidr_of cidr subnetCount) in
  let x := ipToInt ip in
  let parent := x - x mod 2 ^ (32 - cidr) in
  4 <= size /\
  0 <= parent + i * size /\
  parent + (i + 1) * size <= parent + 2 ^ (32 - cidr) <= 2 ^ 32.
Proof.
  intros Hcidr Hi size x parent.
  destruct (newCidr_bounds cidr subnetCount Hcidr) as (B & _ & T).
  fold size in T.
  destruct (subnetSize_min cidr subnetCount) as [_ S4]. fold size in S4.
  pose proof (align_down_range x (32 - cidr) (ipToInt_range ip) ltac:(lia))
    as A. fold parent in A.
  assert ((i + 1) * size
          <= 2 ^ (newCidr_of cidr subnetCount - cidr) * size)
    by (apply Z.mul_le_mono_nonneg_r; lia).
  split; [exact S4 |]. split; nia.
Qed.

(** For a valid address, a base prefix from 0 to 30 and a count of at
    least 1, the subnet at index [i] has the identifier [i + 1], starts
    [i] blocks above the network address of the parent, lies inside the
    parent network, and its host range runs from one above its network
    address to one below its broadcast address, which are as many
    addresses as its usable host count. *)
Theorem generateSubnets_fields ip cidr subnetCount i s :
  isValidIP ip = true ->
  0 <= cidr <= 30 ->
  1 <= subnetCount ->
  nth_error (generateSubnets ip cidr subnetCount) i = Some s ->
  let parent := calculateIPInfo ip cidr in
  let size := 2 ^ (32 - newCidr_of cidr subnetCount) in
  let network := ipToInt (Subnet.networkAddress s) in
  let broadcast := ipToInt (Subnet.broadcastAddress s) in
  Subnet.id s = Z.of_nat i + 1 /\
  network = ipToInt (IPResult.networkAddress parent) + Z.of_nat i * size /\
  broadcast = network + size - 1 /\
  ipToInt (IPResult.networkAddress parent) <= network /\
  broadcast <= ipToInt (IPResult.broadcastAddress parent) /\
  ipToInt (Subnet.firstHost s) = network + 1 /\
  ipToInt (Subnet.lastHost s) = broadcast - 1 /\
  Subnet.usableHosts s
  = ipToInt (Subnet.lastHost s) - ipToInt (Subnet.firstHost s) + 1.
Proof.
  intros _ Hc Hn H. cbv zeta.
  apply generateSubnets_nth in H as (L & ->); [| exact Hn].
  destruct (newCidr_bounds cidr subnetCount Hc) as (B & C & _).
  rewrite C in L.
  destruct (subnet_position ip cidr subnetCount (Z.of_nat i) Hc)
    as (S4 & P0 & P1 & P2); [lia |].
  cbn [calculateIPInfo IPResult.networkAddress IPResult.broadcastAddress].
  cbn [subnet_at Subnet.id Subnet.networkAddress Subnet.broadcastAddress
       Subnet.firstHost Subnet.lastHost Subnet.usableHosts].
  rewrite !ipToInt_intToIp.
  rewrite ipToInt_networkAddress, ipToInt_broadcastAddress by lia.
  set (size := 2 ^ (32 - newCidr_of cidr subnetCount)) in *.
  set (parent := ipToInt ip - ipToInt ip mod 2 ^ (32 - cidr)) in *.
  rewrite !ToUint32_small by lia.
  repeat split; lia.
Qed.

Lemma generateSubnets_fields_witness :
  exists s,
    nth_error (generateSubnets "192.168.0.0" 24 4) 2 = Some s /\
    Subnet.id s = 3 /\
    ipToInt (Subnet.networkAddress s)
    = ipToInt (IPResult.networkAddress (calculateIPInfo "192.168.0.0" 24))
      + 2 * 2 ^ (32 - 26).
Proof.
  destruct (nth_error (generateSubnets "192.168.0.0" 24 4) 2) as [s |] eqn:H;
    [| vm_compute in H; discriminate].
  exists s. split; [reflexivity |].
  destruct (generateSubnets_fields "192.168.0.0" 24 4 2 s)
    as (I & N & _); [reflexivity | lia | lia | exact H |].
  split; [exact I | exact N].
Defined.

(** The first subnet starts at the network address of the parent, and
    the last one ends at its broadcast address exactly when the count does
    not stop the loop early, that is when [2 ^ (newCidr - cidr)] is at
    most the count (a count that is a power of two, or a clamped prefix);
    otherwise the top of the parent network is left unassigned. *)
Theorem generateSubnets_cover ip cidr subnetCount :
  isValidIP ip = true ->
  0 <= cidr <= 30 ->
  1 <= subnetCount ->
  let parent := calculateIPInfo ip cidr in
  let subnets := generateSubnets ip cidr subnetCount in
  exists first last,
    nth_error subnets 0 = Some first /\
    nth_error subnets (List.length subnets - 1) = Some last /\
    ipToInt (Subnet.networkAddress first)
    = ipToInt (IPResult.networkAddress parent) /\
    (ipToInt (Subnet.broadcastAddress last)
     = ipToInt (IPResult.broadcastAddress parent)
     <-> 2 ^ (newCidr_of cidr subnetCount - cidr) <= subnetCount).
Proof.
  intros Hv Hc Hn. cbv zeta.
  destruct (newCidr_bounds cidr subnetCount Hc) as (B & C & T).
  pose proof (generateSubnets_length ip cidr subnetCount Hn) as Len.
  rewrite C in Len.
  assert (P : 1 <= 2 ^ (newCidr_of cidr subnetCount - cidr)).
  { change 1 with (2 ^ 0). apply Z.pow_le_mono_r; lia. }
  set (subnets := generateSubnets ip cidr subnetCount) in *.
  destruct (nth_error subnets 0) as [first |] eqn:E0;
    [| apply nth_error_None in E0; lia].
  destruct (nth_error subnets (List.length subnets - 1)) as [last |] eqn:E1;
    [| apply nth_error_None in E1; lia].
  exists first, last. split; [reflexivity |]. split; [reflexivity |].
  destruct (generateSubnets_fields ip cidr subnetCount _ _ Hv Hc Hn E0)
    as (_ & N0 & _).
  destruct (generateSubnets_fields ip cidr subnetCount _ _ Hv Hc Hn E1)
    as (_ & N1 & B1 & _).
  split; [rewrite N0; change (Z.of_nat 0) with 0; lia |].
  rewrite B1, N1.
  destruct (calculateIPInfo_block ip cidr Hv ltac:(lia)) as (_ & _ & PB & _).
  cbv zeta in PB. rewrite PB.
  destruct (subnetSize_min cidr subnetCount) as [_ S4].
  set (size := 2 ^ (32 - newCidr_of cidr subnetCount)) in *.
  set (e := 2 ^ (newCidr_of cidr subnetCount - cidr)) in *.
  rewrite <- T.
  replace (Z.of_nat (List.length subnets - 1))
    with (Z.min e subnetCount - 1) by lia.
  split; intros H; nia.
Qed.

Lemma generateSubnets_cover_witness :
  let parent := calculateIPInfo "192.168.0.0" 24 in
  let subnets := generateSubnets "192.168.0.0" 24 4 in
  exists first last,
    nth_error subnets 0 = Some first /\
    nth_error subnets (List.length subnets - 1) = Some last /\
    ipToInt (Subnet.networkAddress first)
    = ipToInt (IPResult.networkAddress parent) /\
    (ipToInt (Subnet.broadcastAddress last)
     = ipToInt (IPResult.broadcastAddress parent)
     <-> 2 ^ (newCidr_of 24 4 - 24) <= 4).
Proof.
  apply (generateSubnets_cover "192.168.0.0" 24 4); [reflexivity | lia | lia].
Defined.

(** A count of 0 or less gives the empty list, and the count 1 gives the
    parent network itself as the only subnet. *)
Theorem generateSubnets_small_counts ip cidr :
  isValidIP ip = true ->
  0 <= cidr <= 30 ->
  (forall subnetCount,
      subnetCount <= 0 -> generateSubnets ip cidr subnetCount = []) /\
  exists s,
    generateSubnets ip cidr 1 = [s] /\
    Subnet.cidr s = cidr /\
    Subnet.networkAddress s
    = IPResult.networkAddress (calculateIPInfo ip cidr) /\
    Subnet.broadcastAddress s
    = IPResult.broadcastAddress (calculateIPInfo ip cidr).
Proof.
  intros Hv Hc. split.
  - intros n Hn. now apply generateSubnets_nonpositive.
  - rewrite generateSubnets_run by lia.
    assert (N : newCidr_of cidr 1 = cidr).
    { unfold newCidr_of. replace (Z.log2_up 1) with 0 by reflexivity. lia. }
    rewrite N, Z.sub_diag.
    change (Z.to_nat (Z.min (ceil_pow2 0) 1)) with 1%nat.
    cbn [zrange map].
    eexists. split; [reflexivity |].
    cbn [subnet_at Subnet.cidr Subnet.networkAddress Subnet.broadcastAddress
         calculateIPInfo IPResult.networkAddress IPResult.broadcastAddress].
    split; [reflexivity |].
    pose proof (ipToInt_networkAddress ip cidr ltac:(lia)) as EN.
    pose proof (ipToInt_broadcastAddress ip cidr ltac:(lia)) as EB.
    split.
    + rewrite Z.mul_0_l, Z.add_0_r.
      unfold calculateNetworkAddress at 2. apply intToIp_congr.
      unfold calculateNetworkAddress. rewrite ipToInt_intToIp.
      now rewrite ToUint32_idem.
    + rewrite Z.mul_0_l, Z.add_0_r, EN.
      transitivity
        (intToIp (ipToInt (calculateBroadcastAddress ip
                             (cidrToSubnetMask cidr)))).
      * rewrite EB. reflexivity.
      * unfold calculateBroadcastAddress. apply intToIp_congr.
        rewrite ipToInt_intToIp. now rewrite ToUint32_idem.
Qed.

Lemma generateSubnets_small_counts_witness :
  exists s,
    generateSubnets "192.168.1.10" 24 1 = [s] /\
    Subnet.cidr s = 24 /\
    Subnet.networkAddress s
    = IPResult.networkAddress (calculateIPInfo "192.168.1.10" 24).
Proof.
  destruct (generateSubnets_small_counts "192.168.1.10" 24)
    as (_ & s & E & C & N & _); [reflexivity | lia |].
  exists s. split; [exact E |]. split; [exact C | exact N].
Defined.

(** Under a parent prefix of 31 or 32 the clamp at 30 shortens the
    prefix: whatever the count, the list holds one subnet of prefix 30,
    four addresses starting at the network address of the parent. *)
Theorem generateSubnets_host_prefixes ip cidr subnetCount :
  31 <= cidr <= 32 ->
  1 <= subnetCount ->
  exists s,
    generateSubnets ip cidr subnetCount = [s] /\
    Subnet.id s = 1 /\ Subnet.cidr s = 30 /\ Subnet.usableHosts s = 2 /\
    Subnet.networkAddress s
    = IPResult.networkAddress (calculateIPInfo ip cidr).
Proof.
  intros Hc Hn.
  rewrite generateSubnets_run by exact Hn.
  pose proof (Z.log2_up_nonneg subnetCount) as L.
  assert (N : newCidr_of cidr subnetCount = 30) by (unfold newCidr_of; lia).
  rewrite N.
  assert (E : Z.min (ceil_pow2 (30 - cidr)) subnetCount = 1).
  { unfold ceil_pow2. destruct (Z.ltb_spec (30 - cidr) 0); lia. }
  rewrite E. change (Z.to_nat 1) with 1%nat. cbn [zrange map].
  eexists. split; [reflexivity |].
  cbn [subnet_at Subnet.id Subnet.cidr Subnet.usableHosts
       Subnet.networkAddress calculateIPInfo IPResult.networkAddress].
  repeat (split; [reflexivity |]).
  rewrite Z.mul_0_l, Z.add_0_r.
  unfold calculateNetworkAddress at 2. apply intToIp_congr.
  unfold calculateNetworkAddress. rewrite ipToInt_intToIp.
  now rewrite ToUint32_idem.
Qed.

Lemma generateSubnets_host_prefixes_witness :
  exists s,
    generateSubnets "10.0.0.5" 31 8 = [s] /\ Subnet.cidr s = 30.
Proof.
  destruct (generateSubnets_host_prefixes "10.0.0.5" 31 8)
    as (s & E & _ & C & _); [lia | lia |].
  exists s. split; [exact E | exact C].
Defined.

(** ** Address ranges ([networkUtils]) *)

Section Ranges.

Lemma Some_inj {A : Type} (x y : A) : Some x = Some y -> x = y.
Proof. congruence. Qed.

Lemma range_loop_run endIpInt fuel i :
  (Z.to_nat (endIpInt - i + 1) <= fuel)%nat ->
  range_loop endIpInt fuel i
  = map intToIp (zrange i (Z.to_nat (endIpInt - i + 1))).
Proof.
  revert i. induction fuel as [| fuel IH]; intros i H.
  - replace (Z.to_nat (endIpInt - i + 1)) with O by lia. reflexivity.
  - cbn [range_loop]. destruct (Z.leb_spec i endIpInt) as [L | L].
    + replace (Z.to_nat (endIpInt - i + 1))
        with (S (Z.to_nat (endIpInt - (i + 1) + 1))) by lia.
      cbn [zrange map]. f_equal. apply IH. lia.
    + replace (Z.to_nat (endIpInt - i + 1)) with O by lia. reflexivity.
Qed.

Lemma calculateIpRange_run startIp endIp :
  calculateIpRange startIp endIp
  = map intToIp
        (zrange (ipToInt startIp)
                (Z.to_nat (ipToInt endIp - ipToInt startIp + 1))).
Proof.
  unfold calculateIpRange. cbv zeta.
  destruct (Z.gtb_spec (ipToInt startIp) (ipToInt endIp)) as [G | G].
  - replace (Z.to_nat (ipToInt endIp - ipToInt startIp + 1)) with O by lia.
    reflexivity.
  - apply range_loop_run. lia.
Qed.

(** [calculateIpRange] lists the addresses from the start to the end
    address, both included, in increasing order: none when the start is
    above the end, otherwise [end - start + 1] of them, the one at index
    [k] being the valid address of the number [start + k]. *)
Theorem calculateIpRange_addresses startIp endIp :
  let s := ipToInt startIp in
  let e := ipToInt endIp in
  let ips := calculateIpRange startIp endIp in
  Z.of_nat (List.length ips) = Z.max 0 (e - s + 1) /\
  (e < s -> ips = []) /\
  (forall k a, nth_error ips k = Some a ->
               isValidIP a = true /\ ipToInt a = s + Z.of_nat k /\
               ipToInt a <= e).
Proof.
  cbv zeta. rewrite calculateIpRange_run.
  pose proof (ipToInt_range startIp) as Rs.
  pose proof (ipToInt_range endIp) as Re.
  split; [| split].
  - rewrite length_map, zrange_length. lia.
  - intros L.
    replace (Z.to_nat (ipToInt endIp - ipToInt startIp + 1)) with O by lia.
    reflexivity.
  - intros k a H.
    assert (K : (k < Z.to_nat (ipToInt endIp - ipToInt startIp + 1))%nat).
    { rewrite <- (zrange_length (ipToInt startIp)), <- (length_map intToIp).
      apply nth_error_Some. congruence. }
    rewrite nth_error_map, zrange_nth in H by exact K.
    cbn [option_map] in H. apply Some_inj in H. subst a.
    split; [apply intToIp_valid |].
    rewrite ipToInt_intToIp, ToUint32_small by lia. lia.
Qed.

(** *** The hosts of a subnet *)

Lemma subnet_ips_loop_run broadcastInt limit fuel i len :
  (Z.to_nat (Z.min (broadcastInt - i) (limit - len)) <= fuel)%nat ->
  subnet_ips_loop broadcastInt limit fuel i len
  = map intToIp
        (zrange i (Z.to_nat (Z.min (broadcastInt - i) (limit - len)))).
Proof.
  revert i len. induction fuel as [| fuel IH]; intros i len H.
  - replace (Z.to_nat (Z.min (broadcastInt - i) (limit - len)))
      with O by lia.
    reflexivity.
  - cbn [subnet_ips_loop].
    destruct (Z.ltb_spec i broadcastInt) as [L | L];
      destruct (Z.ltb_spec len limit) as [M | M]; cbn [andb].
    + replace (Z.to_nat (Z.min (broadcastInt - i) (limit - len)))
        with (S (Z.to_nat (Z.min (broadcastInt - (i + 1))
                                 (limit - (len + 1))))) by lia.
      cbn [zrange map]. f_equal. apply IH. lia.
    + replace (Z.to_nat (Z.min (broadcastInt - i) (limit - len)))
        with O by lia.
      reflexivity.
    + replace (Z.to_nat (Z.min (broadcastInt - i) (limit - len)))
        with O by lia.
      reflexivity.
    + replace (Z.to_nat (Z.min (broadcastInt - i) (limit - len)))
        with O by lia.
      reflexivity.
Qed.

(** The signed network and broadcast numbers of [generateIpsInSubnet]
    for the prefixes 1 to 31: an aligned block that does not cross the
    sign boundary. *)
Lemma signed_block x cidr :
  0 <= x < 2 ^ 32 -> 1 <= cidr <= 31 ->
  let k := 32 - cidr in
  let mask := JS.ushr (JS.bnot (JS.ushr 4294967295 cidr)) 0 in
  let networkInt := JS.band x mask in
  let broadcastInt := JS.bor networkInt (JS.ushr (JS.bnot mask) 0) in
  broadcastInt = networkInt + 2 ^ k - 1 /\
  JS.ToUint32 networkInt = x - x mod 2 ^ k /\
  - 2 ^ 31 <= networkInt /\
  (networkInt < 0 -> networkInt + 2 ^ k <= 0).
Proof.
  intros Hx Hc k mask networkInt broadcastInt.
  assert (Hk : 1 <= k <= 31) by (unfold k; lia).
  assert (P : 2 <= 2 ^ k <= 2 ^ 31).
  { split; [change 2 with (2 ^ 1) at 1 |];
      apply Z.pow_le_mono_r; lia. }
  assert (M : mask = 2 ^ 32 - 2 ^ k).
  { unfold mask. fold (mask_of cidr). apply mask_of_value. lia. }
  assert (SM : JS.ToInt32 mask = Z.lnot (Z.ones k)).
  { rewrite M, Z.ones_equiv. unfold Z.lnot, JS.ToInt32.
    replace ((2 ^ 32 - 2 ^ k) mod 2 ^ 32) with (2 ^ 32 - 2 ^ k)
      by (symmetry; apply Z.mod_small; pow2_lia).
    destruct (Z.ltb_spec (2 ^ 32 - 2 ^ k) (2 ^ 31)); pow2_lia. }
  set (S := JS.ToInt32 x).
  pose proof (ToInt32_range x) as RS. fold S in RS.
  assert (N : networkInt = S / 2 ^ k * 2 ^ k).
  { unfold networkInt, JS.band. fold S. rewrite SM.
    rewrite <- Z.ldiff_land, Z.ldiff_ones_r by lia.
    now rewrite Z.shiftr_div_pow2, Z.shiftl_mul_pow2 by lia. }
  assert (E31 : 2 ^ 31 = 2 ^ (31 - k) * 2 ^ k).
  { rewrite <- Z.pow_add_r by lia. f_equal. lia. }
  assert (Q : - 2 ^ (31 - k) <= S / 2 ^ k < 2 ^ (31 - k)).
  { split.
    - apply Z.div_le_lower_bound; [lia |]. rewrite Z.mul_comm. lia.
    - apply Z.div_lt_upper_bound; [lia |]. rewrite Z.mul_comm. lia. }
  assert (NR : - 2 ^ 31 <= networkInt /\ networkInt + 2 ^ k <= 2 ^ 31) by nia.
  assert (W : JS.ushr (JS.bnot mask) 0 = 2 ^ k - 1).
  { rewrite ushr_0, bnot_unsigned, M.
    rewrite ToUint32_small; pow2_lia. }
  split; [| split; [| split]].
  - unfold broadcastInt, JS.bor. rewrite W.
    rewrite !ToInt32_small by pow2_lia.
    rewrite N. rewrite lor_disjoint_add by lia. lia.
  - unfold networkInt. rewrite band_unsigned.
    rewrite (ToUint32_small x) by exact Hx.
    unfold mask. fold (mask_of cidr).
    rewrite (ToUint32_small (mask_of cidr)) by apply mask_of_range.
    rewrite mask_of_value by lia.
    apply land_high_mask; [exact Hx | lia].
  - lia.
  - intros Neg. rewrite N in *.
    assert (S / 2 ^ k < 0) by nia. nia.
Qed.

(** The list the loop builds over a block of [size] addresses that
    starts at the signed number [networkInt]. *)
Lemma subnet_hosts_list networkInt network size limit :
  JS.ToUint32 networkInt = network ->
  2 <= size -> network + size <= 2 ^ 32 ->
  let ips :=
    subnet_ips_loop (networkInt + size - 1) limit
      (Z.to_nat (Z.min limit (networkInt + size - 1 - networkInt)))
      (networkInt + 1) 0 in
  Z.of_nat (List.length ips) = Z.max 0 (Z.min limit (size - 2)) /\
  (forall k a, nth_error ips k = Some a ->
               isValidIP a = true /\
               ipToInt a = network + 1 + Z.of_nat k /\
               network < ipToInt a < network + size - 1).
Proof.
  intros U S2 Top ips. subst ips.
  pose proof (ToUint32_range networkInt) as RU. rewrite U in RU.
  rewrite subnet_ips_loop_run by lia.
  rewrite length_map, zrange_length.
  split; [lia |].
  intros k a H.
  assert (K : (k < Z.to_nat (Z.min (networkInt + size - 1
                                    - (networkInt + 1)) (limit - 0)))%nat).
  { rewrite <- (zrange_length (networkInt + 1)), <- (length_map intToIp).
    apply nth_error_Some. congruence. }
  rewrite nth_error_map, zrange_nth in H by exact K.
  cbn [option_map] in H. apply Some_inj in H. subst a.
  split; [apply intToIp_valid |].
  rewrite ipToInt_intToIp.
  assert (V : JS.ToUint32 (networkInt + 1 + Z.of_nat k)
              = network + 1 + Z.of_nat k).
  { unfold JS.ToUint32 in *.
    replace (networkInt + 1 + Z.of_nat k)
      with (networkInt + (1 + Z.of_nat k)) by lia.
    rewrite <- Zplus_mod_idemp_l, U.
    rewrite Z.mod_small; lia. }
  rewrite V. lia.
Qed.

(** For a valid address, a prefix from 1 to 31 and any limit,
    [generateIpsInSubnet] lists the first hosts of the subnet in
    increasing order: as many as the limit allows, at most the
    [2 ^ (32 - cidr) - 2] addresses strictly between the network and the
    broadcast address, which are never listed themselves. *)
Theorem generateIpsInSubnet_hosts networkIp cidr limit :
  isValidIP networkIp = true ->
  1 <= cidr <= 31 ->
  let x := ipToInt networkIp in
  let network := x - x mod 2 ^ (32 - cidr) in
  let broadcast := network + 2 ^ (32 - cidr) - 1 in
  let ips := generateIpsInSubnet networkIp cidr limit in
  Z.of_nat (List.length ips)
  = Z.max 0 (Z.min limit (2 ^ (32 - cidr) - 2)) /\
  (forall k a, nth_error ips k = Some a ->
               isValidIP a = true /\
               ipToInt a = network + 1 + Z.of_nat k /\
               network < ipToInt a < broadcast).
Proof.
  intros _ Hc. cbv zeta.
  pose proof (ipToInt_range networkIp) as Rx.
  destruct (signed_block (ipToInt networkIp) cidr Rx Hc) as (B & U & _).
  cbv zeta in B, U.
  unfold generateIpsInSubnet. cbv zeta. rewrite B.
  assert (P : 2 <= 2 ^ (32 - cidr)).
  { change 2 with (2 ^ 1) at 1. apply Z.pow_le_mono_r; lia. }
  pose proof (align_down_range (ipToInt networkIp) (32 - cidr) Rx ltac:(lia))
    as A.
  apply subnet_hosts_list; [exact U | exact P | lia].
Qed.

Lemma generateIpsInSubnet_hosts_witness :
  let x := ipToInt "200.1.2.77" in
  let network := x - x mod 2 ^ (32 - 24) in
  let broadcast := network + 2 ^ (32 - 24) - 1 in
  let ips := generateIpsInSubnet "200.1.2.77" 24 50 in
  Z.of_nat (List.length ips) = Z.max 0 (Z.min 50 (2 ^ (32 - 24) - 2)) /\
  (forall k a, nth_error ips k = Some a ->
               isValidIP a = true /\
               ipToInt a = network + 1 + Z.of_nat k /\
               network < ipToInt a < broadcast).
Proof.
  apply (generateIpsInSubnet_hosts "200.1.2.77" 24 50); [reflexivity | lia].
Defined.

(** At the prefixes 0 and 32 the mask is zero and the signed broadcast
    number is -1, below the first candidate 1: no address is listed. *)
Theorem generateIpsInSubnet_whole_space networkIp cidr limit :
  cidr = 0 \/ cidr = 32 ->
  generateIpsInSubnet networkIp cidr limit = [].
Proof.
  intros H. unfold generateIpsInSubnet. cbv zeta.
  assert (M : JS.ushr (JS.bnot (JS.ushr 4294967295 cidr)) 0 = 0)
    by (destruct H as [-> | ->]; reflexivity).
  rewrite M. unfold JS.band. change (JS.ToInt32 0) with 0.
  rewrite Z.land_0_r.
  change (JS.bor 0 (JS.ushr (JS.bnot 0) 0)) with (-1).
  replace (Z.to_nat (Z.min limit (-1 - 0))) with O by lia.
  reflexivity.
Qed.

Lemma generateIpsInSubnet_whole_space_witness :
  generateIpsInSubnet "10.0.0.1" 0 100 = [].
Proof.
  apply (generateIpsInSubnet_whole_space "10.0.0.1" 0 100). left. reflexivity.
Defined.

Lemma map_intToIp_zrange_congr a b n :
  JS.ToUint32 a = JS.ToUint32 b ->
  map intToIp (zrange a n) = map intToIp (zrange b n).
Proof.
  revert a b. induction n as [| n IH]; intros a b H; [reflexivity |].
  cbn [zrange map]. f_equal; [now apply intToIp_congr |].
  apply IH. unfold JS.ToUint32 in *.
  now rewrite <- (Zplus_mod_idemp_l a), H, Zplus_mod_idemp_l.
Qed.

(** The list of [generateIpsInSubnet] for the prefixes 1 to 31. *)
Lemma generateIpsInSubnet_run networkIp cidr limit :
  1 <= cidr <= 31 ->
  generateIpsInSubnet networkIp cidr limit
  = map intToIp
        (zrange (ipToInt networkIp
                 - ipToInt networkIp mod 2 ^ (32 - cidr) + 1)
                (Z.to_nat (Z.min limit (2 ^ (32 - cidr) - 2)))).
Proof.
  intros Hc.
  pose proof (ipToInt_range networkIp) as Rx.
  destruct (signed_block (ipToInt networkIp) cidr Rx Hc) as (B & U & _).
  cbv zeta in B, U.
  unfold generateIpsInSubnet. cbv zeta. rewrite B.
  rewrite subnet_ips_loop_run by lia.
  rewrite <- U.
  match goal with
  | |- map _ (zrange _ ?n) = map _ (zrange _ ?m) =>
      replace n with m by lia
  end.
  apply map_intToIp_zrange_congr.
  unfold JS.ToUint32. rewrite Zplus_mod_idemp_l. reflexivity.
Qed.

End Ranges.

(** ** Service names *)

(** [getServiceNameForPort] answers the empty text exactly for the ports
    that are not in the table, and for a port of the table the service of
    its entry: no port is listed twice, and no service has an empty
    name. *)
Theorem getServiceNameForPort_lookup port :
  (getServiceNameForPort port = ""
   <-> ~ In port (map PortInfo.port commonPorts)) /\
  (forall p, In p commonPorts ->
             getServiceNameForPort (PortInfo.port p) = PortInfo.service p).
Proof.
  assert (K : forall p, In p commonPorts ->
                        getServiceNameForPort (PortInfo.port p)
                        = PortInfo.service p
                        /\ PortInfo.service p <> "").
  { intros p Hp.
    assert (C : forallb
                  (fun q =>
                     String.eqb (getServiceNameForPort (PortInfo.port q))
                                (PortInfo.service q)
                     && negb (String.eqb (PortInfo.service q) ""))
                  commonPorts = true) by (vm_compute; reflexivity).
    rewrite forallb_forall in C. specialize (C p Hp).
    apply andb_prop in C as [C1 C2].
    apply String.eqb_eq in C1. apply negb_true_iff, String.eqb_neq in C2.
    auto. }
  split; [| intros p Hp; now apply K].
  split.
  - intros E Hin. apply in_map_iff in Hin as (p & <- & Hp).
    destruct (K p Hp) as [E1 N]. congruence.
  - intros N. unfold getServiceNameForPort.
    destruct (find (fun p => PortInfo.port p =? port) commonPorts)
      as [p |] eqn:F; [| reflexivity].
    apply find_some in F as [Hp E]. apply Z.eqb_eq in E.
    exfalso. apply N. apply in_map_iff. exists p. auto.
Qed.

(** ** The forms *)

Section Forms.

Lemma isValidIP_not_empty ip : isValidIP ip = true -> is_empty ip = false.
Proof. destruct ip; [discriminate | reflexivity]. Qed.

(** [handleIpRangeScan] starts a scan exactly when both fields hold
    valid addresses and the end address is the start address or one of
    the 49 addresses after it; the scan then covers the whole range. *)
Theorem handleIpRangeScan_starts startIp endIp s e ips :
  handleIpRangeScan startIp endIp = Scanning s e ips <->
  isValidIP startIp = true /\ isValidIP endIp = true /\
  ipToInt startIp <= ipToInt endIp <= ipToInt startIp + 49 /\
  s = startIp /\ e = endIp /\ ips = calculateIpRange startIp endIp.
Proof.
  destruct (calculateIpRange_addresses startIp endIp) as (Len & _).
  cbv zeta in Len.
  unfold handleIpRangeScan.
  destruct (is_empty startIp) eqn:Es.
  { cbn [orb]. split; [discriminate |].
    intros (V & _). apply isValidIP_not_empty in V. congruence. }
  destruct (is_empty endIp) eqn:Ee.
  { cbn [orb]. split; [discriminate |].
    intros (_ & V & _). apply isValidIP_not_empty in V. congruence. }
  cbn [orb].
  destruct (isValidIP startIp) eqn:Vs.
  2:{ cbn [negb orb]. split; [discriminate | intros (V & _); discriminate]. }
  destruct (isValidIP endIp) eqn:Ve.
  2:{ cbn [negb orb]. split; [discriminate | intros (_ & V & _); discriminate]. }
  cbn [negb orb]. cbv zeta.
  set (l := calculateIpRange startIp endIp) in *.
  destruct (Nat.eqb_spec (List.length l) 0) as [Z0 | NZ].
  { split; [discriminate |]. intros (_ & _ & R & _). lia. }
  destruct (Nat.ltb_spec 50 (List.length l)) as [Big | Small].
  { split; [discriminate |]. intros (_ & _ & R & _). lia. }
  split.
  - intros H. inversion H; subst. repeat split; lia.
  - intros (_ & _ & _ & -> & -> & ->). reflexivity.
Qed.

(** For a valid address [handleScanSubnet] never reports an error: it
    scans the first fifty hosts of the /24 network of the address, in
    order, and sets the start and end fields to the first and the last of
    them. *)
Theorem handleScanSubnet_targets ip :
  isValidIP ip = true ->
  let network := ipToInt ip - ipToInt ip mod 256 in
  exists ips,
    handleScanSubnet ip
    = Scanning (intToIp (network + 1)) (intToIp (network + 50)) ips /\
    List.length ips = 50%nat /\
    (forall k, (k < 50)%nat ->
               nth_error ips k = Some (intToIp (network + 1 + Z.of_nat k))).
Proof.
  intros V. cbv zeta.
  unfold handleScanSubnet.
  rewrite (isValidIP_not_empty ip V), V. cbn [negb]. cbv zeta.
  rewrite generateIpsInSubnet_run by lia.
  change (2 ^ (32 - 24)) with 256.
  change (Z.to_nat (Z.min 50 (256 - 2))) with 50%nat.
  set (network := ipToInt ip - ipToInt ip mod 256).
  set (ips := map intToIp (zrange (network + 1) 50)).
  assert (N : forall k, (k < 50)%nat ->
                        nth_error ips k
                        = Some (intToIp (network + 1 + Z.of_nat k))).
  { intros k Hk. unfold ips.
    now rewrite nth_error_map, zrange_nth by exact Hk. }
  assert (L : List.length ips = 50%nat)
    by (unfold ips; now rewrite length_map, zrange_length).
  exists ips. split; [| split; [exact L | exact N]].
  destruct ips as [| first rest] eqn:E; [discriminate |].
  f_equal.
  - specialize (N 0%nat ltac:(lia)). cbn [nth_error] in N.
    apply Some_inj in N. rewrite N. f_equal.
    change (Z.of_nat 0) with 0. lia.
  - rewrite <- E.
    assert (NE : ips <> []) by (rewrite E; discriminate).
    destruct (exists_last NE) as (front & lst & EL).
    rewrite <- E in L, N.
    rewrite EL, last_last.
    specialize (N 49%nat ltac:(lia)).
    rewrite EL in N, L. rewrite length_app in L. cbn [List.length] in L.
    rewrite nth_error_app2 in N by lia.
    replace (49 - List.length front)%nat with 0%nat in N by lia.
    cbn [nth_error] in N. apply Some_inj in N.
    rewrite N. f_equal. change (Z.of_nat 49) with 49. lia.
Qed.

Lemma handleScanSubnet_targets_witness :
  exists ips,
    handleScanSubnet "10.1.2.3" = Scanning "10.1.2.1" "10.1.2.50" ips /\
    List.length ips = 50%nat.
Proof.
  destruct (handleScanSubnet_targets "10.1.2.3") as (ips & E & L & _);
    [reflexivity |].
  exists ips. split; [exact E | exact L].
Defined.

(** The count field shows no error exactly when its text starts with an
    integer from 2 to 1024, and [handleGenerate] only generates subnets
    from a text for which the field shows no error. *)
Theorem handleCountChange_accepts value :
  (handleCountChange value = ""
   <-> exists count, JS.parseInt value = Some count /\ 2 <= count <= 1024) /\
  (forall ip cidr,
      handleGenerate ip cidr value <> None -> handleCountChange value = "").
Proof.
  assert (A : handleCountChange value = ""
              <-> exists count,
                  JS.parseInt value = Some count /\ 2 <= count <= 1024).
  { unfold handleCountChange.
    destruct (JS.parseInt value) as [count |].
    - destruct (Z.ltb_spec count 2) as [L | L].
      + split; [discriminate |]. intros (c & E & R). inversion E. lia.
      + destruct (Z.gtb_spec count 1024) as [G | G].
        * split; [discriminate |]. intros (c & E & R). inversion E. lia.
        * split; [| reflexivity]. intros _. exists count. split; [reflexivity | lia].
    - split; [discriminate |]. intros (c & E & _). discriminate. }
  split; [exact A |].
  intros ip cidr H. apply A. unfold handleGenerate in H.
  destruct (JS.parseInt value) as [count |]; [| contradiction].
  destruct (Z.leb_spec 2 count); destruct (Z.leb_spec count 1024);
    cbn [andb] in H; try contradiction.
  exists count. split; [reflexivity | lia].
Qed.

(** While the address is typed, the form shows an error exactly for a
    text that is neither empty nor valid, and a binary preview exactly
    for a valid one, 35 characters long; a later submit computes a result
    exactly for the texts that show a preview. *)
Theorem handleIpChange_preview value :
  (fst (handleIpChange value) <> ""
   <-> value <> "" /\ isValidIP value = false) /\
  (snd (handleIpChange value) <> "" <-> isValidIP value = true) /\
  (isValidIP value = true ->
   String.length (snd (handleIpChange value)) = 35%nat) /\
  (forall cidr,
      (exists r, handleSubmit value cidr = Calculated r)
      <-> snd (handleIpChange value) <> "").
Proof.
  assert (P : isValidIP value = true ->
              snd (handleIpChange value) = ipToBinary value).
  { intros V. unfold handleIpChange.
    rewrite V, (isValidIP_not_empty value V). reflexivity. }
  assert (B : isValidIP value = true -> ipToBinary value <> "").
  { intros V E. destruct (ipToBinary_valid value V) as (_ & _ & _ & L & _).
    rewrite E in L. discriminate. }
  assert (S : snd (handleIpChange value) <> "" <-> isValidIP value = true).
  { split.
    - unfold handleIpChange. destruct value as [| c v].
      + cbn. congruence.
      + cbn [is_empty negb andb]. destruct (isValidIP (String c v)).
        * reflexivity.
        * cbn. congruence.
    - intros V. rewrite (P V). now apply B. }
  split; [| split; [exact S | split]].
  - unfold handleIpChange. destruct value as [| c v].
    + cbn. split; [congruence | intros [N _]; congruence].
    + cbn [is_empty negb andb]. destruct (isValidIP (String c v)); cbn.
      * split; [congruence | intros [_ F]; discriminate].
      * split; [intros _; split; [discriminate | reflexivity] | discriminate].
  - intros V. rewrite (P V). now apply ipToBinary_valid.
  - intros cidr. rewrite S. unfold handleSubmit.
    destruct value as [| c v].
    + cbn. split; [intros (r & E); discriminate | discriminate].
    + cbn [is_empty]. destruct (isValidIP (String c v)); cbn [negb].
      * split; [reflexivity | intros _; eexists; reflexivity].
      * split; [intros (r & E); discriminate | discriminate].
Qed.

(** The histories keep the newest entry in front and never more than ten
    entries. *)
Theorem pushHistory_bounded {A : Type} (entry : A) (prev : list A) :
  pushHistory entry prev = firstn 10 (entry :: prev) /\
  nth_error (pushHistory entry prev) 0 = Some entry /\
  List.length (pushHistory entry prev)
  = Nat.min 10 (S (List.length prev)) /\
  (List.length (pushHistory entry prev) <= 10)%nat.
Proof.
  assert (E : pushHistory entry prev = firstn 10 (entry :: prev)).
  { unfold pushHistory. cbv zeta.
    destruct (Nat.ltb_spec 10 (List.length (entry :: prev))) as [L | L].
    - reflexivity.
    - symmetry. apply firstn_all2. exact L. }
  split; [exact E |]. rewrite E. split; [reflexivity |].
  rewrite length_firstn. cbn [List.length]. split; lia.
Qed.

End Forms.
